(** * LMS recommendation engine: the features-based similarity search

    Shallow embedding of [FeaturesEngine]
    (src/libs/recommendation/impl/features/FeaturesEngine.hpp): the
    template helpers [getMatchingRefVectorsPosition], [getObjectsIds] and
    [getSimilarObjects], together with the properties the specification
    states about them.  Further parts embed the paging and grouping of
    releases (src/database/Release.cpp), the media request handler
    (remote/server/MediaRequestHandler.cpp) and the processing of
    authentication tokens (src/libs/auth/impl/AuthTokenService.cpp). *)

From Stdlib Require Import ZArith Lia Sorted.
From Stdlib Require Import Floats.PrimFloat.
From stdpp Require Import base decidable countable list option gmap strings.

(** * Data model *)

(** [SOM::Position]: a pair of unsigned grid coordinates. *)
Record Position := mkPosition { x : N; y : N }.

#[global] Instance Position_eq_dec : EqDecision Position.
Proof. solve_decision. Defined.

#[global] Instance Position_countable : Countable Position.
Proof.
  apply (inj_countable' (λ p, (x p, y p)) (λ xy, mkPosition xy.1 xy.2)).
  by intros [??].
Defined.

(** [SOM::Matrix<T>] (som/Matrix.hpp is not among the sources): the
    engine only reads a matrix through [get], so a matrix is the function
    that [get] computes. *)
Definition Matrix (T : Type) : Type := Position → T.

Definition get {T : Type} (m : Matrix T) (position : Position) : T := m position.

(** [SOM::Network] (som/Network.hpp is not among the sources).  The search
    calls one method of it; the network is kept as that method, an
    arbitrary function of the positions already searched and of the
    largest distance allowed. *)
Record Network := mkNetwork {
  getClosestRefVectorPosition : list Position → float → option Position
}.

(** Database identifiers are [long long] values behind a wrapper class. *)
Abbreviation ArtistId := Z (only parsing).
Abbreviation ReleaseId := Z (only parsing).
Abbreviation TrackId := Z (only parsing).

(** [ObjectPositions<IdType>] is [std::unordered_map<IdType,
    std::vector<SOM::Position>>] and [ObjectMatrix<IdType>] is
    [SOM::Matrix<std::vector<IdType>>]. *)
Abbreviation ObjectPositions IdType := (gmap IdType (list Position)) (only parsing).
Abbreviation ObjectMatrix IdType := (Matrix (list IdType)) (only parsing).

(** The data members of [FeaturesEngine].  [Database::TrackArtistLinkType]
    is an enumeration declared outside the sources; the record is generic
    in it.  [_network] is a [std::unique_ptr], empty until a load
    succeeds. *)
Record FeaturesEngine (TrackArtistLinkType : Type)
    `{Countable TrackArtistLinkType} := mkFeaturesEngine {
  _loadCancelled : bool;
  _network : option Network;
  _networkRefVectorsDistanceMedian : float;
  _artistPositions : ObjectPositions ArtistId;
  _artistMatrix : gmap TrackArtistLinkType (ObjectMatrix ArtistId);
  _releasePositions : ObjectPositions ReleaseId;
  _releaseMatrix : ObjectMatrix ReleaseId;
  _trackPositions : ObjectPositions TrackId;
  _trackMatrix : ObjectMatrix TrackId
}.

Arguments _loadCancelled {_ _ _} _.
Arguments _network {_ _ _} _.
Arguments _networkRefVectorsDistanceMedian {_ _ _} _.
Arguments _artistPositions {_ _ _} _.
Arguments _artistMatrix {_ _ _} _.
Arguments _releasePositions {_ _ _} _.
Arguments _releaseMatrix {_ _ _} _.
Arguments _trackPositions {_ _ _} _.
Arguments _trackMatrix {_ _ _} _.

(** * Helpers *)

(** Modelled from the spec: [Utils::push_back_if_not_present]
    (utils/Utils.hpp is not among the sources).  As its name and the
    specification's "append newly found ids (no duplicates)" say, the value
    is appended at the end unless the vector holds it already. *)
Definition push_back_if_not_present {T : Type} `{EqDecision T}
    (vec : list T) (val : T) : list T :=
  if decide (val ∈ vec) then vec else vec ++ [val].

(** What happened to one call of [getSimilarObjects]. *)
Inductive Outcome (IdType : Type) : Type :=
  | Returned (res : list IdType)
      (** [return res] *)
  | NullNetwork (res : list IdType)
      (** [_network->...] evaluated on an empty [unique_ptr] *)
  | OutOfFuel (searched : list Position) (res : list IdType)
      (** the [while (1)] loop was still running *).

Arguments Returned {IdType} res.
Arguments NullNetwork {IdType} res.
Arguments OutOfFuel {IdType} searched res.

(** The [res] vector an outcome holds. *)
Definition collected {IdType : Type} (o : Outcome IdType) : list IdType :=
  match o with
  | Returned res | NullNetwork res | OutOfFuel _ res => res
  end.

(** One recorded call of [getClosestRefVectorPosition]: its arguments. *)
Definition NetworkCall : Type := list Position * float.

Section Search.
Context {IdType : Type} `{Countable IdType}.

(** Lines 132-152. *)
Definition getMatchingRefVectorsPosition (ids : list IdType)
    (objectPositions : ObjectPositions IdType) : list Position :=
  match ids with
  | [] => []
  | _ =>
    foldl (λ res id,
             match objectPositions !! id with
             | None => res
             | Some positions => foldl push_back_if_not_present res positions
             end) [] ids
  end.

(** Lines 154-167. *)
Definition getObjectsIds (positions : list Position)
    (objectMatrix : ObjectMatrix IdType) : list IdType :=
  foldl (λ res position,
           foldl push_back_if_not_present res (get objectMatrix position))
        [] positions.

(** Lines 187-192: the erase/remove_if idiom drops every id found in
    [ids] and keeps the others in order. *)
Definition removeInput (ids closestObjectIds : list IdType) : list IdType :=
  filter (λ id, id ∉ ids) closestObjectIds.

(** Lines 194-200: the [for] loop, left as soon as [res] holds
    [maxCount] ids. *)
Fixpoint report (maxCount : nat) (res closestObjectIds : list IdType)
    : list IdType :=
  match closestObjectIds with
  | [] => res
  | id :: rest =>
    if decide (length res = maxCount) then res
    else report maxCount (push_back_if_not_present res id) rest
  end.

Context {TrackArtistLinkType : Type} `{Countable TrackArtistLinkType}.
Variable this : FeaturesEngine TrackArtistLinkType.
Variable ids : list IdType.
Variable objectMatrix : ObjectMatrix IdType.
Variable maxCount : nat.

(** The distance bound passed to the network (line 206). *)
Definition maxDistance : float :=
  (_networkRefVectorsDistanceMedian this * 0.75)%float.

(** Lines 182-211: the [while (1)] loop, unfolded at most [fuel] times.
    The first component lists the calls made to the network, in order. *)
Fixpoint searchLoop (fuel : nat) (searchedRefVectorsPosition : list Position)
    (res : list IdType) : list NetworkCall * Outcome IdType :=
  match fuel with
  | O => ([], OutOfFuel searchedRefVectorsPosition res)
  | S fuel' =>
    let closestObjectIds :=
      removeInput ids (getObjectsIds searchedRefVectorsPosition objectMatrix) in
    let res := report maxCount res closestObjectIds in
    if decide (length res = maxCount) then ([], Returned res)
    else
      match _network this with
      | None => ([], NullNetwork res)
      | Some network =>
        let call := (searchedRefVectorsPosition, maxDistance) in
        match getClosestRefVectorPosition network
                searchedRefVectorsPosition maxDistance with
        | None => ([call], Returned res)
        | Some closestRefVectorPosition =>
          let '(calls, outcome) :=
            searchLoop fuel'
              (push_back_if_not_present searchedRefVectorsPosition
                                        closestRefVectorPosition)
              res in
          (call :: calls, outcome)
        end
      end
  end.

End Search.

Arguments searchLoop {IdType _ TrackArtistLinkType _ _}
  this ids objectMatrix maxCount fuel searchedRefVectorsPosition res.
Arguments maxDistance {TrackArtistLinkType _ _} this.

(** Lines 169-214.  [fuel] bounds the number of passes of the loop. *)
Definition getSimilarObjects {IdType : Type} `{Countable IdType}
    {TrackArtistLinkType : Type} `{Countable TrackArtistLinkType}
    (this : FeaturesEngine TrackArtistLinkType)
    (ids : list IdType)
    (objectMatrix : ObjectMatrix IdType)
    (objectPositions : ObjectPositions IdType)
    (maxCount : nat) (fuel : nat) : list NetworkCall * Outcome IdType :=
  let res := [] in
  let searchedRefVectorsPosition :=
    getMatchingRefVectorsPosition ids objectPositions in
  match searchedRefVectorsPosition with
  | [] => ([], Returned res)
  | _ => searchLoop this ids objectMatrix maxCount fuel
           searchedRefVectorsPosition res
  end.

(** * Notions used to state the properties *)

(** The precondition under which the loop is known to stop: the network
    only answers with cells of a finite grid, and never with a position it
    was told is searched already. *)
Definition answersFreshCells (network : Network) (cells : list Position)
    (distance : float) : Prop :=
  ∀ searched p,
    getClosestRefVectorPosition network searched distance = Some p →
    p ∈ cells ∧ p ∉ searched.

(** The cells of the grid the search has not reached yet. *)
Definition unsearched (cells searched : list Position) : gset Position :=
  list_to_set cells ∖ list_to_set searched.

(** What the network answered to the calls recorded: the positions it
    gave, in the order of the calls; a call it had no answer to gives
    none. *)
Definition answers {TrackArtistLinkType : Type}
    `{Countable TrackArtistLinkType}
    (this : FeaturesEngine TrackArtistLinkType) (calls : list NetworkCall)
    : list Position :=
  match _network this with
  | Some network =>
    omap (λ call : NetworkCall,
            getClosestRefVectorPosition network call.1 call.2) calls
  | None => []
  end.

(** The positions searched once the calls [calls] are answered: those
    resolved from the seeds, in the order they were resolved, followed by
    the answers of the network, in the order it gave them (line 210). *)
Definition searchedPositions {TrackArtistLinkType : Type}
    `{Countable TrackArtistLinkType}
    (this : FeaturesEngine TrackArtistLinkType)
    (resolved : list Position) (calls : list NetworkCall) : list Position :=
  foldl push_back_if_not_present resolved (answers this calls).

(** [run] returns [res] after the calls [calls] to the network: every
    large enough number of passes allowed gives that result. *)
Definition returnsWith {IdType : Type}
    (run : nat → list NetworkCall * Outcome IdType)
    (calls : list NetworkCall) (res : list IdType) : Prop :=
  ∃ fuel0, ∀ fuel, fuel0 ≤ fuel → run fuel = (calls, Returned res).

(** * The cache codec *)

Module CacheCodec.
Section Codec.
Context {Category : Type} `{Countable Category}.

(** Modelled from the spec: the tag [FeaturesEngineCache] writes in front
    of a blob (FeaturesEngineCache.hpp and FeaturesEngine.cpp are not among
    the sources); the specification names a format/version tag and gives it
    no value. *)
Variable formatVersion : N.

(** Modelled from the spec: the network as the codec sees it, "fixed grid
    dimensions, one reference vector per cell".  The median distance is
    derived from the reference vectors after a load and is no part of what
    is stored. *)
Record Network := mkNetwork {
  gridWidth : N;
  gridHeight : N;
  referenceVectors : list (list float)
}.

(** Modelled from the spec: a snapshot is "the tuple (Network,
    PositionIndex per category, GridMatrix per category)", a position index
    maps an object id to its positions in order, a grid matrix maps a
    position to a set of object ids. *)
Record Snapshot := mkSnapshot {
  network : Network;
  positionIndex : gmap Category (gmap Z (list Position));
  gridMatrix : gmap Category (gmap Position (gset Z))
}.

(** Modelled from the spec: the persisted blob, "format/version tag, grid
    dimensions, reference vectors, and per-category position/matrix
    indices", the maps and sets written out as sequences of entries. *)
Record CacheBlob := mkCacheBlob {
  versionTag : N;
  blobGridWidth : N;
  blobGridHeight : N;
  blobReferenceVectors : list (list float);
  blobPositionIndex : list (Category * list (Z * list Position));
  blobGridMatrix : list (Category * list (Position * list Z))
}.

(** Modelled from the spec: [decode] gives "Snapshot or
    IncompatibleCache". *)
Inductive DecodeResult : Type :=
  | Decoded (snapshot : Snapshot)
  | IncompatibleCache.

(** Modelled from the spec: [encode(snapshot) -> CacheBlob]
    ([FeaturesEngine::toCache] is declared in the header, its body is not
    among the sources). *)
Definition encode (snapshot : Snapshot) : CacheBlob :=
  {| versionTag := formatVersion;
     blobGridWidth := gridWidth (network snapshot);
     blobGridHeight := gridHeight (network snapshot);
     blobReferenceVectors := referenceVectors (network snapshot);
     blobPositionIndex :=
       map_to_list (map_to_list <$> positionIndex snapshot);
     blobGridMatrix :=
       map_to_list ((λ matrix : gmap Position (gset Z),
                       map_to_list (elements <$> matrix))
                    <$> gridMatrix snapshot) |}.

(** Modelled from the spec: [decode(blob, expectedDimensions)]
    ([FeaturesEngine::loadFromCache] is declared in the header, its body is
    not among the sources).  "Decoding MUST validate a format/version tag
    and the reference-vector dimensionality against the currently
    configured feature settings; any mismatch fails closed." *)
Definition decode (blob : CacheBlob) (expectedDimensions : nat)
    : DecodeResult :=
  if decide (versionTag blob = formatVersion) then
    if decide (Forall (λ vector, length vector = expectedDimensions)
                      (blobReferenceVectors blob)) then
      Decoded
        {| network :=
             {| gridWidth := blobGridWidth blob;
                gridHeight := blobGridHeight blob;
                referenceVectors := blobReferenceVectors blob |};
           positionIndex :=
             (λ entries, list_to_map entries : gmap Z (list Position))
             <$> (list_to_map (blobPositionIndex blob)
                  : gmap Category (list (Z * list Position)));
           gridMatrix :=
             (λ entries,
                (λ ids, list_to_set ids : gset Z)
                <$> (list_to_map entries : gmap Position (list Z)))
             <$> (list_to_map (blobGridMatrix blob)
                  : gmap Category (list (Position * list Z))) |}
    else IncompatibleCache
  else IncompatibleCache.

End Codec.
End CacheCodec.

Arguments CacheCodec.Snapshot Category {_ _}.
Arguments CacheCodec.CacheBlob Category : clear implicits.
Arguments CacheCodec.DecodeResult Category {_ _}.


(** * A small installed snapshot, used to run the search *)

Module Demo.

Definition cell00 : Position := mkPosition 0 0.
Definition cell01 : Position := mkPosition 0 1.
Definition cell10 : Position := mkPosition 1 0.
Definition cell11 : Position := mkPosition 1 1.

Definition cells : list Position := [cell00; cell01; cell10; cell11].

(** Tracks 1 and 2 sit in cell (0,0), track 3 in (0,1), track 4 in (1,1). *)
Definition trackMatrix : ObjectMatrix TrackId :=
  λ p, if decide (p = cell00) then [1; 2]%Z
       else if decide (p = cell01) then [3]%Z
       else if decide (p = cell11) then [4]%Z
       else [].

Definition trackPositions : ObjectPositions TrackId :=
  <[1%Z := [cell00]]> (<[2%Z := [cell00]]> (<[3%Z := [cell01]]>
    (<[4%Z := [cell11]]> ∅))).

(** A network that hands out the cells of the grid in a fixed order,
    skipping those already searched, whatever the distance allowed. *)
Definition network : Network :=
  mkNetwork (λ searched _, head (filter (λ p, p ∉ searched) cells)).

(** A network in which no cell is close enough to another. *)
Definition isolated : Network := mkNetwork (λ _ _, None).

Definition engine (n : option Network) : FeaturesEngine unit :=
  {| _loadCancelled := false;
     _network := n;
     _networkRefVectorsDistanceMedian := 2%float;
     _artistPositions := ∅;
     _artistMatrix := ∅;
     _releasePositions := ∅;
     _releaseMatrix := λ _, [];
     _trackPositions := trackPositions;
     _trackMatrix := trackMatrix |}.

(** A network that keeps answering with a cell searched already. *)
Definition repeating : Network := mkNetwork (λ _ _, Some cell00).

(** An engine on which no load has succeeded. *)
Definition notLoaded : FeaturesEngine unit :=
  {| _loadCancelled := false;
     _network := None;
     _networkRefVectorsDistanceMedian := 0%float;
     _artistPositions := ∅;
     _artistMatrix := ∅;
     _releasePositions := ∅;
     _releaseMatrix := λ _, [];
     _trackPositions := ∅;
     _trackMatrix := λ _, [] |}.

(** The categories of a snapshot, with one link type for the artists. *)
Inductive Category : Type := Tracks | Releases | Artists.

#[global] Instance Category_eq_dec : EqDecision Category.
Proof. solve_decision. Defined.

#[global] Instance Category_countable : Countable Category.
Proof.
  apply (inj_countable'
           (λ c, match c with Tracks => 0 | Releases => 1 | Artists => 2 end)
           (λ n, match n with 0 => Tracks | 1 => Releases | _ => Artists end)).
  by intros [].
Defined.

(** The demonstration snapshot as the codec sees it, over two features. *)
Definition snapshot : CacheCodec.Snapshot Category :=
  CacheCodec.mkSnapshot
    (CacheCodec.mkNetwork 2 2
       [[0%float; 0.5%float]; [0.25%float; 1%float];
        [2%float; 0.125%float]; [4%float; 3%float]])
    {[ Tracks := trackPositions ]}
    {[ Tracks := {[ cell00 := {[ 1%Z; 2%Z ]};
                    cell01 := {[ 3%Z ]};
                    cell11 := {[ 4%Z ]} ]} ]}.

End Demo.


(** * Releases (src/database/Release.cpp) *)

Module Release.

(** [Wt::Dbo::Query::limit] and [offset] (Wt library): the rows of the
    query are cut by SQL's LIMIT and OFFSET, and [-1] stands for "none".
    LIMIT counts the rows left after OFFSET, in whatever order the two are
    set on the query.  Any other count is handed to SQLite, which reads a
    negative LIMIT as no limit and a negative OFFSET as no row skipped. *)
Definition limit {A : Type} (count : Z) (rows : list A) : list A :=
  if decide (count < 0)%Z then rows else take (Z.to_nat count) rows.

Definition offset {A : Type} (count : Z) (rows : list A) : list A :=
  if decide (count = -1)%Z then rows else drop (Z.to_nat count) rows.

(** [static_cast<std::size_t>] of an [int]. *)
Definition to_size_t (n : Z) : Z := (n mod 2 ^ 64)%Z.

(** Lines 118-139.  [rows] stands for what [getQuery(session, clusterIds,
    keywords)] selects, in its order; the result is the vector returned and
    the value left in [moreResults].  [size + 1] is computed on [int]: it
    overflows for [size = INT_MAX]. *)
Definition getByFilter {A : Type} (rows : list A) (offset_ size : Z)
    : list A * bool :=
  let collection :=
    limit (if decide (size ≠ -1)%Z then size + 1 else -1)%Z
          (offset offset_ rows) in
  let res := collection in
  if decide (size ≠ -1
             ∧ Z.of_nat (length res) = (to_size_t size + 1) mod 2 ^ 64)%Z
  then (removelast res, true)
  else (res, false).

Section ClusterGroups.
(** [Cluster] objects (Cluster.hpp is not among the sources) are only
    asked for the id of their type, [cluster->getType().id()]. *)
Context {Cluster : Type}.
Variable typeId : Cluster → Z.

(** [std::map<IdType, std::vector<Cluster::pointer>>]: the entries in
    increasing key order.  [operator[]] adds an empty vector for a key that
    is not there. *)
Fixpoint subscript (key : Z) (clusters : list (Z * list Cluster))
    : list (Z * list Cluster) :=
  match clusters with
  | [] => [(key, [])]
  | (k, v) :: rest =>
    if decide (key < k)%Z then (key, []) :: clusters
    else if decide (key = k) then clusters
    else (k, v) :: subscript key rest
  end.

(** The vector [clusters[key]], once the key is there. *)
Fixpoint at_ (key : Z) (clusters : list (Z * list Cluster)) : list Cluster :=
  match clusters with
  | [] => []
  | (k, v) :: rest => if decide (key = k) then v else at_ key rest
  end.

(** [clusters[key].push_back(cluster)]. *)
Fixpoint push_back (key : Z) (cluster : Cluster)
    (clusters : list (Z * list Cluster)) : list (Z * list Cluster) :=
  match clusters with
  | [] => []
  | (k, v) :: rest =>
    if decide (key = k) then (k, v ++ [cluster]) :: rest
    else (k, v) :: push_back key cluster rest
  end.

(** Lines 263-268, one turn of the loop. *)
Definition addCluster (size : nat) (clusters : list (Z * list Cluster))
    (cluster : Cluster) : list (Z * list Cluster) :=
  let clusters := subscript (typeId cluster) clusters in
  if decide (length (at_ (typeId cluster) clusters) < size)
  then push_back (typeId cluster) cluster (subscript (typeId cluster) clusters)
  else clusters.

(** Lines 263-274.  [queryRes] stands for the rows of the query built in
    lines 240-261. *)
Definition getClusterGroups (queryRes : list Cluster) (size : nat)
    : list (list Cluster) :=
  let clusters := foldl (addCluster size) [] queryRes in
  map snd clusters.

End ClusterGroups.

End Release.

(** * The media request handler (remote/server/MediaRequestHandler.cpp) *)

Module MediaRequestHandler.

(** The messages exchanged (generated from a protocol description that is
    not among the sources) are records of the fields the handler reads and
    writes; an optional sub-message or field, tested with [has_...], is an
    [option].  [TypeMediaOther] and [CodecTypeOther] stand for the values
    that reach the [default:] labels. *)
Inductive MediaRequest_Type : Type :=
  | TypeMediaPrepare
  | TypeMediaGetPart
  | TypeMediaTerminate
  | TypeMediaOther.

Inductive AudioCodecType : Type :=
  | CodecTypeOGA
  | CodecTypeOther.

Record Audio := mkAudio {
  codec_type : option AudioCodecType;
  bitrate : option N;
  track_id : Z
}.

Record Prepare := mkPrepare {
  audio : option Audio;
  video : option unit
}.

Record GetPart := mkGetPart { requested_data_size : nat }.

Record MediaRequest := mkMediaRequest {
  type : MediaRequest_Type;
  prepare : option Prepare;
  get_part : option GetPart;
  terminate : option unit
}.

Inductive MediaResponse_Type : Type :=
  | TypeError
  | TypePart.

Record Error := mkError {
  error_ : bool;
  message : string
}.

Record MediaResponse := mkMediaResponse {
  response_type : option MediaResponse_Type;
  error : option Error;
  part : option (list Byte.byte)
}.

(** [response.mutable_error()->set_error(e)], [set_message(m)] and
    [response.set_type(MediaResponse::TypeError)]. *)
Definition setError (response : MediaResponse) (e : bool) (m : string)
    : MediaResponse :=
  {| response_type := Some TypeError;
     error := Some (mkError e m);
     part := part response |}.

(** [response.set_type(MediaResponse::TypePart)] and the copy of bytes at
    the end of [response.mutable_part()->mutable_data()]. *)
Definition appendPart (response : MediaResponse) (bytes : list Byte.byte)
    : MediaResponse :=
  {| response_type := Some TypePart;
     error := error response;
     part := Some (default [] (part response) ++ bytes) |}.

Section Handler.
(** [Transcode::AvConvTranscoder] (not among the sources): its output
    buffer, which the handler reads and erases from, and the rest of its
    state. *)
Context {TranscoderState : Type}.

Record Transcoder := mkTranscoder {
  state : TranscoderState;
  getOutputData : list Byte.byte
}.

(** [isComplete()] and [process()] of the transcoder. *)
Variable isComplete : Transcoder → bool.
Variable transcoderProcess : Transcoder → Transcoder.

(** [_maxPartSize] (MediaRequestHandler.hpp is not among the sources). *)
Variable _maxPartSize : nat.

(** [Database::Track::getById] followed by [getPath]: the path of the
    track, if there is such a track. *)
Variable getTrackPath : Z → option string.

(** Lines 102-106: the transcoder built for a file and a bit rate, or the
    [what()] of the [std::exception] thrown on the way. *)
Variable makeTranscoder : string → N → Transcoder + string.

(** The handler holds at most one transcoder ([_transcoder] is a
    [std::shared_ptr]). *)
Record Handler := mkHandler { _transcoder : option Transcoder }.

(** A call gives what the function returns, the response as it leaves it
    and the handler as it leaves it. *)
Definition Result : Type := bool * MediaResponse * Handler.

(** Lines 58-121. *)
Definition processAudioPrepare (request : Audio) (response : MediaResponse)
    (this : Handler) : Result :=
  let bitrate_ := 128000%N in
  match codec_type request with
  | Some CodecTypeOther => (false, response, this)
  | Some CodecTypeOGA | None =>
    let bitrate_ := default bitrate_ (bitrate request) in
    match _transcoder this with
    | Some _ =>
      (true, setError response true "Transcode already in progress", this)
    | None =>
      match getTrackPath (track_id request) with
      | None =>
        (true, setError response true "Cannot find requested track!", this)
      | Some path =>
        match makeTranscoder path bitrate_ with
        | inl transcoder =>
          (true, setError response false "", mkHandler (Some transcoder))
        | inr what =>
          (true, setError response true ("exception: " +:+ what), this)
        end
      end
    end
  end.

(** Line 138: [process()] is called until the transcoder is complete or
    holds [dataSize] bytes; [None] when [fuel] calls were not enough. *)
Fixpoint fill (fuel : nat) (dataSize : nat) (transcoder : Transcoder)
    : option Transcoder :=
  if negb (isComplete transcoder)
     && bool_decide (length (getOutputData transcoder) < dataSize)
  then
    match fuel with
    | O => None
    | S fuel' => fill fuel' dataSize (transcoderProcess transcoder)
    end
  else Some transcoder.

(** Lines 123-156. *)
Definition processGetPart (fuel : nat) (request : GetPart)
    (response : MediaResponse) (this : Handler) : option Result :=
  let dataSize := requested_data_size request in
  let dataSize :=
    if decide (_maxPartSize < dataSize) then _maxPartSize else dataSize in
  match _transcoder this with
  | None => Some (true, setError response true "No transcoder set!", this)
  | Some transcoder =>
    transcoder ← fill fuel dataSize transcoder;
    let sent :=
      if decide (dataSize < length (getOutputData transcoder))
      then take dataSize (getOutputData transcoder)
      else getOutputData transcoder in
    Some (true,
          appendPart response sent,
          mkHandler
            (Some (mkTranscoder (state transcoder)
                     (drop (length sent) (getOutputData transcoder)))))
  end.

(** Lines 159-172. *)
Definition processTerminate (request : unit) (response : MediaResponse)
    (this : Handler) : Result :=
  (true, setError response false "", mkHandler None).

(** Lines 14-56.  The messages written to the log are left out. *)
Definition process (fuel : nat) (request : MediaRequest)
    (response : MediaResponse) (this : Handler) : option Result :=
  let res := false in
  match type request with
  | TypeMediaPrepare =>
    match prepare request with
    | Some prepare_ =>
      match audio prepare_ with
      | Some audio_ => Some (processAudioPrepare audio_ response this)
      | None => Some (res, response, this)
      end
    | None => Some (res, response, this)
    end
  | TypeMediaGetPart =>
    match get_part request with
    | Some get_part_ => processGetPart fuel get_part_ response this
    | None => Some (res, response, this)
    end
  | TypeMediaTerminate =>
    match terminate request with
    | Some terminate_ => Some (processTerminate terminate_ response this)
    | None => Some (res, response, this)
    end
  | TypeMediaOther => Some (res, response, this)
  end.

End Handler.

End MediaRequestHandler.

(** * The authentication token service (src/libs/auth/impl/AuthTokenService.cpp) *)

Module AuthTokenService.

Inductive State : Type :=
  | Granted
  | Denied
  | Throttled.

Section Service.
(** The database session, the tokens it stores, the login throttler, the
    client addresses and the dates are declared outside the sources; the
    service only goes through the operations below. *)
Context {Session AuthToken LoginThrottler Address DateTime : Type}.

(** [sha1Function.compute(secret, {})]. *)
Variable sha1 : string → string.

(** [Database::AuthToken::getByValue], [getExpiry], [getUser()->getId()]
    and the removal of a token from the session. *)
Variable getByValue : Session → string → option AuthToken.
Variable getExpiry : AuthToken → DateTime.
Variable getUserId : AuthToken → Z.
Variable remove : Session → AuthToken → Session.

(** [operator<] on dates. *)
Variable before : DateTime → DateTime → bool.

(** The login throttler. *)
Variable isClientThrottled : LoginThrottler → Address → bool.
Variable onBadClientAttempt : LoginThrottler → Address → LoginThrottler.
Variable onGoodClientAttempt : LoginThrottler → Address → LoginThrottler.

(** [onUserAuthenticated], of the base class. *)
Variable onUserAuthenticated : Session → Z → Session.

Record AuthTokenInfo := mkAuthTokenInfo {
  userId : Z;
  expiry : DateTime
}.

Record AuthTokenProcessResult := mkAuthTokenProcessResult {
  state : State;
  authTokenInfo : option AuthTokenInfo
}.

(** Lines 69-93, the static function.  [now] is
    [Wt::WDateTime::currentDateTime()]; the session is returned as the
    function leaves it. *)
Definition processAuthToken_static (now : DateTime) (session : Session)
    (secret : string) : Session * option AuthTokenInfo :=
  let secretHash := sha1 secret in
  match getByValue session secretHash with
  | None => (session, None)
  | Some authToken =>
    if before (getExpiry authToken) now
    then (remove session authToken, None)
    else
      let res := mkAuthTokenInfo (getUserId authToken) (getExpiry authToken) in
      (remove session authToken, Some res)
  end.

(** Lines 95-123, as one thread runs them: what other threads do to the
    throttler between the two locked blocks is left out. *)
Definition processAuthToken (now : DateTime) (session : Session)
    (_loginThrottler : LoginThrottler) (clientAddress : Address)
    (tokenValue : string)
    : AuthTokenProcessResult * Session * LoginThrottler :=
  if isClientThrottled _loginThrottler clientAddress
  then (mkAuthTokenProcessResult Throttled None, session, _loginThrottler)
  else
    let '(session, res) := processAuthToken_static now session tokenValue in
    if isClientThrottled _loginThrottler clientAddress
    then (mkAuthTokenProcessResult Throttled None, session, _loginThrottler)
    else
      match res with
      | None =>
        (mkAuthTokenProcessResult Denied None, session,
         onBadClientAttempt _loginThrottler clientAddress)
      | Some info =>
        (mkAuthTokenProcessResult Granted (Some info),
         onUserAuthenticated session (userId info),
         onGoodClientAttempt _loginThrottler clientAddress)
      end.

End Service.

End AuthTokenService.

(** * Small instances of the handler and of the token service *)

Module MediaDemo.

(** A transcoder that needs [state] more calls of [process()] and gives
    two bytes at each. *)
Definition isComplete (t : @MediaRequestHandler.Transcoder nat) : bool :=
  bool_decide (MediaRequestHandler.state t = 0).

Definition transcoderProcess (t : @MediaRequestHandler.Transcoder nat)
    : @MediaRequestHandler.Transcoder nat :=
  match MediaRequestHandler.state t with
  | O => t
  | S n =>
    MediaRequestHandler.mkTranscoder n
      (MediaRequestHandler.getOutputData t ++ [Byte.x01; Byte.x02])
  end.

Definition _maxPartSize : nat := 3.

Definition getTrackPath (id : Z) : option string :=
  if decide (id = 1%Z) then Some "a.flac" else None.

Definition makeTranscoder (path : string) (bitrate : N)
    : @MediaRequestHandler.Transcoder nat + string :=
  if decide (path = "a.flac")
  then inl (MediaRequestHandler.mkTranscoder 2 [])
  else inr "no such file".

Definition process :=
  MediaRequestHandler.process isComplete transcoderProcess _maxPartSize
    getTrackPath makeTranscoder.

Definition emptyResponse : MediaRequestHandler.MediaResponse :=
  MediaRequestHandler.mkMediaResponse None None None.

Definition idle : @MediaRequestHandler.Handler nat :=
  MediaRequestHandler.mkHandler None.

Definition busy : @MediaRequestHandler.Handler nat :=
  MediaRequestHandler.mkHandler
    (Some (MediaRequestHandler.mkTranscoder 2 [Byte.x00])).

Definition prepareTrack (id : Z) : MediaRequestHandler.MediaRequest :=
  MediaRequestHandler.mkMediaRequest MediaRequestHandler.TypeMediaPrepare
    (Some (MediaRequestHandler.mkPrepare
             (Some (MediaRequestHandler.mkAudio None None id)) None))
    None None.

Definition getPart (size : nat) : MediaRequestHandler.MediaRequest :=
  MediaRequestHandler.mkMediaRequest MediaRequestHandler.TypeMediaGetPart
    None (Some (MediaRequestHandler.mkGetPart size)) None.

Definition terminate : MediaRequestHandler.MediaRequest :=
  MediaRequestHandler.mkMediaRequest MediaRequestHandler.TypeMediaTerminate
    None None (Some tt).

End MediaDemo.

Module AuthDemo.

(** Tokens stored under their hash, with their user and the date they
    expire at; a throttler that is the set of the addresses it holds
    back. *)
Definition Session : Type := gmap string (Z * nat).
Definition AuthToken : Type := string * (Z * nat).

Definition sha1 (secret : string) : string := "sha1:" +:+ secret.

Definition getByValue (session : Session) (hash : string) : option AuthToken :=
  (λ entry, (hash, entry)) <$> (session : gmap string (Z * nat)) !! hash.

Definition getExpiry (token : AuthToken) : nat := token.2.2.
Definition getUserId (token : AuthToken) : Z := token.2.1.

Definition remove (session : Session) (token : AuthToken) : Session :=
  delete token.1 (session : gmap string (Z * nat)).

Definition before (a b : nat) : bool := bool_decide (a < b).

Definition isClientThrottled (throttler : gset nat) (address : nat) : bool :=
  bool_decide (address ∈ throttler).

Definition onBadClientAttempt (throttler : gset nat) (address : nat)
    : gset nat := {[address]} ∪ throttler.

Definition onGoodClientAttempt (throttler : gset nat) (address : nat)
    : gset nat := throttler ∖ {[address]}.

Definition onUserAuthenticated (session : Session) (user : Z) : Session :=
  session.

Definition processAuthToken :=
  AuthTokenService.processAuthToken sha1 getByValue getExpiry getUserId
    remove before isClientThrottled onBadClientAttempt onGoodClientAttempt
    onUserAuthenticated.

(** One token of user 7, good until date 100. *)
Definition session : Session := {[ "sha1:secret" := (7%Z, 100) ]}.

End AuthDemo.

(** * Properties of the helpers *)

Section HelperLemmas.
Context {T : Type} `{EqDecision T}.
Implicit Types (vec res l : list T) (val v : T).

Lemma push_back_present vec val :
  val ∈ vec → push_back_if_not_present vec val = vec.
Proof. intros Hin. unfold push_back_if_not_present. by rewrite decide_True. Qed.

Lemma push_back_absent vec val :
  val ∉ vec → push_back_if_not_present vec val = vec ++ [val].
Proof. intros Hin. unfold push_back_if_not_present. by rewrite decide_False. Qed.

Lemma elem_of_push_back vec val v :
  v ∈ push_back_if_not_present vec val ↔ v ∈ vec ∨ v = val.
Proof.
  unfold push_back_if_not_present. case_decide.
  - split; [by left | intros [?| ->]; done].
  - rewrite elem_of_app, list_elem_of_singleton. done.
Qed.

Lemma NoDup_push_back vec val :
  NoDup vec → NoDup (push_back_if_not_present vec val).
Proof.
  intros Hnd. unfold push_back_if_not_present. case_decide; [done|].
  apply NoDup_app. split_and!; [done| |apply NoDup_singleton].
  intros v Hv Hv'. apply list_elem_of_singleton in Hv'. by subst.
Qed.

Lemma prefix_push_back vec val :
  vec `prefix_of` push_back_if_not_present vec val.
Proof.
  unfold push_back_if_not_present. case_decide; [done|]. by apply prefix_app_r.
Qed.

Lemma length_push_back vec val :
  length (push_back_if_not_present vec val)
  = if decide (val ∈ vec) then length vec else S (length vec).
Proof.
  unfold push_back_if_not_present. case_decide; [done|].
  rewrite length_app. simpl. lia.
Qed.

Lemma filter_ext_in (P Q : T → Prop)
    `{!∀ v, Decision (P v), !∀ v, Decision (Q v)} l :
  (∀ v, v ∈ l → P v ↔ Q v) → filter P l = filter Q l.
Proof.
  induction l as [|a l IH]; intros Hext; [done|].
  rewrite !filter_cons, IH by (intros v Hv; apply Hext; by right).
  apply decide_ext, Hext. by left.
Qed.

(** Pushing a whole vector, element by element. *)
Lemma elem_of_foldl_push_back l res v :
  v ∈ foldl push_back_if_not_present res l ↔ v ∈ res ∨ v ∈ l.
Proof.
  revert res. induction l as [|a l IH]; intros res; simpl.
  - rewrite elem_of_nil. tauto.
  - rewrite IH, elem_of_push_back, elem_of_cons. tauto.
Qed.

Lemma foldl_push_back_present l res :
  (∀ v, v ∈ l → v ∈ res) → foldl push_back_if_not_present res l = res.
Proof.
  revert res. induction l as [|a l IH]; intros res Hall; simpl; [done|].
  rewrite push_back_present by (apply Hall; by left).
  apply IH. intros v Hv. apply Hall. by right.
Qed.

(** Pushing a vector that holds one value only, not pushed before. *)
Lemma foldl_push_back_single l res val :
  (∀ v, v ∈ l ↔ v = val) → val ∉ res →
  foldl push_back_if_not_present res l = res ++ [val].
Proof.
  intros Hl Hnew. destruct l as [|a l].
  - exfalso. eapply not_elem_of_nil, Hl. done.
  - assert (a = val) as -> by (apply Hl; by left). simpl.
    rewrite push_back_absent by done. apply foldl_push_back_present.
    intros v Hv. apply elem_of_app. right. apply list_elem_of_singleton.
    apply Hl. by right.
Qed.

Lemma NoDup_foldl_push_back l res :
  NoDup res → NoDup (foldl push_back_if_not_present res l).
Proof.
  revert res. induction l as [|a l IH]; intros res Hnd; simpl; [done|].
  by apply IH, NoDup_push_back.
Qed.

Lemma prefix_foldl_push_back l res :
  res `prefix_of` foldl push_back_if_not_present res l.
Proof.
  revert res. induction l as [|a l IH]; intros res; simpl; [done|].
  etrans; [apply prefix_push_back | apply IH].
Qed.

End HelperLemmas.

Section SearchLemmas.
Context {IdType : Type} `{Countable IdType}.
Implicit Types (ids closest : list IdType) (id : IdType).
Implicit Types (positions searched : list Position).
Implicit Types (objectMatrix : Matrix (list IdType)).
Implicit Types (objectPositions : gmap IdType (list Position)).

(** ** [getMatchingRefVectorsPosition] *)

Lemma getMatchingRefVectorsPosition_nil objectPositions :
  getMatchingRefVectorsPosition [] objectPositions = [].
Proof. reflexivity. Qed.

Lemma getMatchingRefVectorsPosition_fold ids objectPositions :
  getMatchingRefVectorsPosition ids objectPositions
  = foldl (λ res id,
             match objectPositions !! id with
             | None => res
             | Some ps => foldl push_back_if_not_present res ps
             end) [] ids.
Proof. by destruct ids. Qed.

Lemma matching_fold_unresolved ids objectPositions (acc : list Position) :
  (∀ id, id ∈ ids → objectPositions !! id = None) →
  foldl (λ res id,
           match objectPositions !! id with
           | None => res
           | Some ps => foldl push_back_if_not_present res ps
           end) acc ids = acc.
Proof.
  revert acc. induction ids as [|id ids IH]; intros acc Hnone; simpl; [done|].
  rewrite (Hnone id) by left. apply IH. intros id' Hin. apply Hnone. by right.
Qed.

Lemma getMatchingRefVectorsPosition_unresolved ids objectPositions :
  (∀ id, id ∈ ids → objectPositions !! id = None) →
  getMatchingRefVectorsPosition ids objectPositions = [].
Proof.
  intros Hnone. rewrite getMatchingRefVectorsPosition_fold.
  by apply matching_fold_unresolved.
Qed.

Lemma matching_fold_NoDup ids objectPositions (acc : list Position) :
  NoDup acc →
  NoDup (foldl (λ res id,
                  match objectPositions !! id with
                  | None => res
                  | Some ps => foldl push_back_if_not_present res ps
                  end) acc ids).
Proof.
  revert acc. induction ids as [|id ids IH]; intros acc Hnd; simpl; [done|].
  apply IH. destruct (objectPositions !! id); [|done].
  by apply NoDup_foldl_push_back.
Qed.

Lemma getMatchingRefVectorsPosition_NoDup ids objectPositions :
  NoDup (getMatchingRefVectorsPosition ids objectPositions).
Proof.
  rewrite getMatchingRefVectorsPosition_fold.
  apply matching_fold_NoDup, NoDup_nil_2.
Qed.

Lemma getMatchingRefVectorsPosition_single id ps objectPositions :
  objectPositions !! id = Some ps →
  getMatchingRefVectorsPosition [id] objectPositions
  = foldl push_back_if_not_present [] ps.
Proof. intros Hid. unfold getMatchingRefVectorsPosition. simpl. by rewrite Hid. Qed.

(** ** [getObjectsIds] *)

Lemma objects_fold_elem_of positions objectMatrix (acc : list IdType) id :
  id ∈ foldl (λ res position,
                foldl push_back_if_not_present res (get objectMatrix position))
             acc positions
  ↔ id ∈ acc ∨ ∃ p, p ∈ positions ∧ id ∈ get objectMatrix p.
Proof.
  revert acc. induction positions as [|p positions IH]; intros acc; simpl.
  - split; [by left|]. intros [?|(p & Hp & _)]; [done|]. by apply elem_of_nil in Hp.
  - rewrite IH, elem_of_foldl_push_back. split.
    + intros [[?|?]|(q & Hq & ?)]; [by left| |].
      * right. exists p. split; [by left|done].
      * right. exists q. split; [by right|done].
    + intros [?|(q & Hq & ?)]; [by left; left|].
      apply elem_of_cons in Hq as [->|Hq]; [by left; right|].
      right. by exists q.
Qed.

Lemma getObjectsIds_elem_of positions objectMatrix id :
  id ∈ getObjectsIds positions objectMatrix
  ↔ ∃ p, p ∈ positions ∧ id ∈ get objectMatrix p.
Proof.
  unfold getObjectsIds. rewrite objects_fold_elem_of, elem_of_nil. tauto.
Qed.

Lemma objects_fold_NoDup positions objectMatrix (acc : list IdType) :
  NoDup acc →
  NoDup (foldl (λ res position,
                  foldl push_back_if_not_present res (get objectMatrix position))
               acc positions).
Proof.
  revert acc. induction positions as [|p positions IH]; intros acc Hnd; simpl;
    [done|].
  by apply IH, NoDup_foldl_push_back.
Qed.

Lemma getObjectsIds_NoDup positions objectMatrix :
  NoDup (getObjectsIds positions objectMatrix).
Proof. apply objects_fold_NoDup, NoDup_nil_2. Qed.

Lemma objects_fold_prefix positions objectMatrix (acc : list IdType) :
  acc `prefix_of`
  foldl (λ (res : list IdType) position,
           foldl push_back_if_not_present res (get objectMatrix position))
        acc positions.
Proof.
  revert acc. induction positions as [|p positions IH]; intros acc; simpl;
    [done|].
  etrans; [apply prefix_foldl_push_back | apply IH].
Qed.

(** ** Removal of the input ids *)

Lemma removeInput_elem_of ids closest id :
  id ∈ removeInput ids closest ↔ (id ∉ ids) ∧ (id ∈ closest).
Proof. unfold removeInput. by rewrite list_elem_of_filter. Qed.

Lemma removeInput_NoDup ids closest :
  NoDup closest → NoDup (removeInput ids closest).
Proof. apply NoDup_filter. Qed.

(** ** The reporting loop *)

Implicit Types (res : list IdType) (maxCount : nat).

Lemma report_length maxCount res closest :
  length res ≤ maxCount → length (report maxCount res closest) ≤ maxCount.
Proof.
  revert res. induction closest as [|id closest IH]; intros res Hlen; simpl;
    [done|].
  case_decide; [done|]. apply IH. rewrite length_push_back. case_decide; lia.
Qed.

Lemma report_prefix maxCount res closest :
  res `prefix_of` report maxCount res closest.
Proof.
  revert res. induction closest as [|id closest IH]; intros res; simpl; [done|].
  case_decide; [done|]. etrans; [apply prefix_push_back | apply IH].
Qed.

Lemma report_NoDup maxCount res closest :
  NoDup res → NoDup (report maxCount res closest).
Proof.
  revert res. induction closest as [|id closest IH]; intros res Hnd; simpl;
    [done|].
  case_decide; [done|]. by apply IH, NoDup_push_back.
Qed.

Lemma report_elem_of maxCount res closest id :
  id ∈ report maxCount res closest → id ∈ res ∨ id ∈ closest.
Proof.
  revert res. induction closest as [|a closest IH]; intros res; simpl;
    [by left|].
  case_decide; [by left|]. intros Hin.
  apply IH in Hin as [Hin|Hin]; [|by right; right].
  apply elem_of_push_back in Hin as [?| ->]; [by left|by right; left].
Qed.

Lemma report_cons maxCount res id closest :
  length res ≠ maxCount →
  report maxCount res (id :: closest)
  = report maxCount (push_back_if_not_present res id) closest.
Proof. intros Hlen. simpl. by rewrite decide_False. Qed.

Lemma report_full maxCount res closest :
  length res = maxCount → report maxCount res closest = res.
Proof. intros Hlen. destruct closest; simpl; [done|]. by rewrite decide_True. Qed.

(** A pass that ends below [maxCount] has gone through all of [closest]. *)
Lemma report_incomplete maxCount res closest id :
  length (report maxCount res closest) ≠ maxCount →
  id ∈ closest → id ∈ report maxCount res closest.
Proof.
  revert res. induction closest as [|a closest IH]; intros res Hlen Hin;
    simpl in *; [by apply elem_of_nil in Hin|].
  case_decide; [done|].
  apply elem_of_cons in Hin as [->|Hin]; [|by apply IH].
  eapply elem_of_prefix; [|apply report_prefix].
  apply elem_of_push_back. by right.
Qed.

(** A pass over ids that are all reported already changes nothing. *)
Lemma report_fixed maxCount res closest :
  (∀ id, id ∈ closest → id ∈ res) → report maxCount res closest = res.
Proof.
  revert res. induction closest as [|a closest IH]; intros res Hall; simpl;
    [done|].
  case_decide; [done|].
  rewrite push_back_present by (apply Hall; by left).
  apply IH. intros id Hin. apply Hall. by right.
Qed.

(** Discovery order: a pass appends, after what was reported before, the
    ids of [closest] not reported yet, in the order of [closest], cut so
    that [maxCount] is not exceeded. *)
Lemma report_app maxCount res closest :
  NoDup closest → length res ≤ maxCount →
  report maxCount res closest
  = res ++ take (maxCount - length res) (filter (λ id, id ∉ res) closest).
Proof.
  revert res. induction closest as [|a closest IH]; intros res Hnd Hlen; simpl.
  - by rewrite filter_nil, take_nil, app_nil_r.
  - apply NoDup_cons in Hnd as [Ha Hnd].
    case_decide as Hfull.
    + replace (maxCount - length res) with 0 by lia. by rewrite take_0, app_nil_r.
    + destruct (decide (a ∈ res)) as [Hin|Hin].
      * rewrite push_back_present by done.
        rewrite (filter_cons_False (λ id, id ∉ res)) by tauto. by apply IH.
      * rewrite push_back_absent by done.
        rewrite (filter_cons_True (λ id, id ∉ res)) by done.
        rewrite IH; [|done|rewrite length_app; simpl; lia].
        rewrite length_app. simpl.
        replace (maxCount - length res) with (S (maxCount - (length res + 1)))
          by lia.
        simpl. rewrite <-app_assoc. simpl. do 3 f_equal.
        apply filter_ext_in. intros id Hid.
        rewrite elem_of_app, list_elem_of_singleton.
        split; [tauto|]. intros Hres [?| ->]; done.
Qed.

End SearchLemmas.

(** * Properties of the search loop *)

Lemma elem_of_unsearched cells searched p :
  p ∈ unsearched cells searched ↔ (p ∈ cells) ∧ (p ∉ searched).
Proof.
  unfold unsearched. by rewrite elem_of_difference, !elem_of_list_to_set.
Qed.

Lemma unsearched_push_back cells searched p :
  p ∈ cells → p ∉ searched →
  size (unsearched cells (push_back_if_not_present searched p))
  < size (unsearched cells searched).
Proof.
  intros Hcell Hfresh. apply subset_size. split.
  - intros q. rewrite !elem_of_unsearched, elem_of_push_back. tauto.
  - intros Hsub. specialize (Hsub p).
    rewrite !elem_of_unsearched, elem_of_push_back in Hsub. tauto.
Qed.

Lemma size_list_to_set_le (l : list Position) :
  size (list_to_set l : gset Position) ≤ length l.
Proof.
  induction l as [|a l IH]; simpl; [done|].
  rewrite size_union_alt, size_singleton.
  assert (size (list_to_set l ∖ {[a]} : gset Position)
          ≤ size (list_to_set l : gset Position)) as Hle.
  { apply subseteq_size. intros q Hq. by apply elem_of_difference in Hq as [? _]. }
  lia.
Qed.

Lemma size_unsearched cells searched :
  size (unsearched cells searched) ≤ length cells.
Proof.
  etrans; [|apply size_list_to_set_le]. apply subseteq_size.
  intros q Hq. apply elem_of_unsearched in Hq as [Hq _].
  by apply elem_of_list_to_set.
Qed.

Section LoopLemmas.
Context {IdType : Type} `{Countable IdType}.
Context {TrackArtistLinkType : Type} `{Countable TrackArtistLinkType}.
Variable this : FeaturesEngine TrackArtistLinkType.
Variable ids : list IdType.
Variable objectMatrix : Matrix (list IdType).
Variable maxCount : nat.

(** What one pass makes of [res] (lines 184-200). *)
Local Abbreviation pass searched res :=
  (report maxCount res (removeInput ids (getObjectsIds searched objectMatrix))).

Local Abbreviation loop := (searchLoop this ids objectMatrix maxCount).

Lemma searchLoop_S fuel searched res :
  loop (S fuel) searched res
  = if decide (length (pass searched res) = maxCount)
    then ([], Returned (pass searched res))
    else match _network this with
         | None => ([], NullNetwork (pass searched res))
         | Some network =>
           match getClosestRefVectorPosition network searched
                   (maxDistance this) with
           | None => ([(searched, maxDistance this)], Returned (pass searched res))
           | Some p =>
             ((searched, maxDistance this)
                :: (loop fuel (push_back_if_not_present searched p)
                      (pass searched res)).1,
              (loop fuel (push_back_if_not_present searched p)
                 (pass searched res)).2)
           end
         end.
Proof.
  simpl. case_decide; [done|]. destruct (_network this) as [network|]; [|done].
  destruct (getClosestRefVectorPosition _ _ _); [|done].
  by destruct (searchLoop _ _ _ _ _ _ _).
Qed.

(** Whatever a pass preserves holds of the [res] of every outcome. *)
Lemma searchLoop_collected (Inv : list IdType → Prop) :
  (∀ searched res, Inv res → Inv (pass searched res)) →
  ∀ fuel searched res, Inv res → Inv (collected (loop fuel searched res).2).
Proof.
  intros Hpass. induction fuel as [|fuel IH]; intros searched res Hres;
    [done|].
  rewrite searchLoop_S. specialize (Hpass searched res Hres).
  case_decide; [done|]. destruct (_network this) as [network|]; [|done].
  destruct (getClosestRefVectorPosition _ _ _); [|done]. simpl. by apply IH.
Qed.

Lemma searchLoop_prefix fuel searched res :
  res `prefix_of` collected (loop fuel searched res).2.
Proof.
  revert searched res. induction fuel as [|fuel IH]; intros searched res;
    [done|].
  rewrite searchLoop_S. pose proof (report_prefix maxCount res
    (removeInput ids (getObjectsIds searched objectMatrix))) as Hp.
  case_decide; [done|]. destruct (_network this) as [network|]; [|done].
  destruct (getClosestRefVectorPosition _ _ _); [|done]. simpl.
  etrans; [exact Hp | apply IH].
Qed.

(** Every call to the network passes three quarters of the median. *)
Lemma searchLoop_calls fuel searched res :
  Forall (λ call : NetworkCall, call.2 = maxDistance this)
         (loop fuel searched res).1.
Proof.
  revert searched res. induction fuel as [|fuel IH]; intros searched res;
    [by apply Forall_nil|].
  rewrite searchLoop_S.
  case_decide; [by apply Forall_nil|].
  destruct (_network this) as [network|]; [|by apply Forall_nil].
  destruct (getClosestRefVectorPosition _ _ _); simpl.
  - apply Forall_cons. split; [done|apply IH].
  - by apply Forall_singleton.
Qed.

(** More fuel does not change a result already reached. *)
Lemma searchLoop_fuel_mono fuel fuel' searched res calls r :
  loop fuel searched res = (calls, Returned r) → fuel ≤ fuel' →
  loop fuel' searched res = (calls, Returned r).
Proof.
  revert fuel' searched res calls. induction fuel as [|fuel IH];
    intros fuel' searched res calls Hrun Hle; [done|].
  destruct fuel' as [|fuel']; [lia|].
  rewrite searchLoop_S in *.
  case_decide; [done|]. destruct (_network this) as [network|]; [|done].
  destruct (getClosestRefVectorPosition _ _ _) as [p|]; [|done].
  destruct (loop fuel _ _) as [calls0 o0] eqn:Hrec. simpl in Hrun.
  injection Hrun as <- ->.
  by rewrite (IH fuel' _ _ _ Hrec) by lia.
Qed.

(** Ids reported stay where they are: what is reported after more passes
    extends what was reported after fewer. *)
Lemma searchLoop_grows fuel fuel' searched res :
  fuel ≤ fuel' →
  collected (loop fuel searched res).2
  `prefix_of` collected (loop fuel' searched res).2.
Proof.
  revert fuel' searched res. induction fuel as [|fuel IH];
    intros fuel' searched res Hle; [apply searchLoop_prefix|].
  destruct fuel' as [|fuel']; [lia|].
  rewrite !searchLoop_S.
  case_decide; [done|]. destruct (_network this) as [network|]; [|done].
  destruct (getClosestRefVectorPosition _ _ _); [|done]. simpl.
  apply IH. lia.
Qed.

(** With a network that only answers with unsearched cells of a finite
    grid, the loop returns, within one pass more than there are cells
    left to search. *)
Lemma searchLoop_terminates network cells :
  _network this = Some network →
  answersFreshCells network cells (maxDistance this) →
  ∀ fuel searched res,
    size (unsearched cells searched) < fuel →
    ∃ calls r, loop fuel searched res = (calls, Returned r).
Proof.
  intros Hnet Hfresh. induction fuel as [|fuel IH]; intros searched res Hfuel;
    [lia|].
  rewrite searchLoop_S, Hnet. case_decide; [by eauto|].
  destruct (getClosestRefVectorPosition _ _ _) as [p|] eqn:Hp; [|by eauto].
  apply Hfresh in Hp as [Hcell Hnew].
  pose proof (unsearched_push_back cells searched p Hcell Hnew) as Hlt.
  destruct (IH (push_back_if_not_present searched p)
               (pass searched res)) as (calls & r & Hrun); [lia|].
  rewrite Hrun. by eauto.
Qed.

(** Such a network is called at most once per cell left to search, and
    once more. *)
Lemma searchLoop_calls_bound network cells :
  _network this = Some network →
  answersFreshCells network cells (maxDistance this) →
  ∀ fuel searched res,
    length (loop fuel searched res).1 ≤ S (size (unsearched cells searched)).
Proof.
  intros Hnet Hfresh. induction fuel as [|fuel IH]; intros searched res;
    [simpl; lia|].
  rewrite searchLoop_S, Hnet. case_decide; [simpl; lia|].
  destruct (getClosestRefVectorPosition _ _ _) as [p|] eqn:Hp; [|simpl; lia].
  apply Hfresh in Hp as [Hcell Hnew].
  pose proof (unsearched_push_back cells searched p Hcell Hnew) as Hlt.
  specialize (IH (push_back_if_not_present searched p) (pass searched res)).
  simpl. lia.
Qed.

(** ... and without that precondition it may run for ever: once the
    network answers with a position searched already, while fewer than
    [maxCount] ids are reported, every further pass sees the same
    positions and the same ids. *)
Lemma pass_idempotent searched res :
  length (pass searched res) ≠ maxCount →
  pass searched (pass searched res) = pass searched res.
Proof.
  intros Hlen. apply report_fixed. intros id Hin. by apply report_incomplete.
Qed.

Lemma searchLoop_stuck network searched res p :
  _network this = Some network →
  getClosestRefVectorPosition network searched (maxDistance this) = Some p →
  p ∈ searched →
  length (pass searched res) ≠ maxCount →
  ∀ fuel, (loop fuel searched res).2
          = OutOfFuel searched (if fuel is O then res else pass searched res).
Proof.
  intros Hnet Hp Hin Hlen fuel. revert res Hlen.
  induction fuel as [|fuel IH]; intros res Hlen; [done|].
  rewrite searchLoop_S, Hnet, Hp, decide_False by done. simpl.
  rewrite push_back_present by done.
  rewrite IH by (by rewrite pass_idempotent).
  destruct fuel; [done|]. by rewrite pass_idempotent.
Qed.

End LoopLemmas.

(** * The search as a whole *)

Section SimilarObjects.
Context {IdType : Type} `{Countable IdType}.
Context {TrackArtistLinkType : Type} `{Countable TrackArtistLinkType}.
Variable this : FeaturesEngine TrackArtistLinkType.
Variable ids : list IdType.
Variable objectMatrix : Matrix (list IdType).
Variable objectPositions : gmap IdType (list Position).
Variable maxCount : nat.

Local Abbreviation search :=
  (getSimilarObjects this ids objectMatrix objectPositions maxCount).

Lemma getSimilarObjects_unresolved fuel :
  getMatchingRefVectorsPosition ids objectPositions = [] →
  search fuel = ([], Returned []).
Proof. intros Hnil. unfold getSimilarObjects. by rewrite Hnil. Qed.

Lemma getSimilarObjects_resolved fuel :
  getMatchingRefVectorsPosition ids objectPositions ≠ [] →
  search fuel
  = searchLoop this ids objectMatrix maxCount fuel
      (getMatchingRefVectorsPosition ids objectPositions) [].
Proof.
  intros Hne. unfold getSimilarObjects.
  by destruct (getMatchingRefVectorsPosition ids objectPositions).
Qed.

(** What holds of the empty vector and is kept by every pass holds of
    the [res] of every outcome. *)
Lemma getSimilarObjects_collected (Inv : list IdType → Prop) fuel :
  Inv [] →
  (∀ searched res, Inv res →
     Inv (report maxCount res
            (removeInput ids (getObjectsIds searched objectMatrix)))) →
  Inv (collected (search fuel).2).
Proof.
  intros Hnil Hpass.
  destruct (decide (getMatchingRefVectorsPosition ids objectPositions = []))
    as [Hempty|Hfound].
  - by rewrite getSimilarObjects_unresolved.
  - rewrite getSimilarObjects_resolved by done.
    by apply searchLoop_collected.
Qed.

Lemma getSimilarObjects_length fuel :
  length (collected (search fuel).2) ≤ maxCount.
Proof.
  apply (getSimilarObjects_collected (λ r, length r ≤ maxCount)).
  - simpl. lia.
  - intros ? ?. apply report_length.
Qed.

Lemma getSimilarObjects_NoDup fuel : NoDup (collected (search fuel).2).
Proof.
  apply (getSimilarObjects_collected NoDup).
  - apply NoDup_nil_2.
  - intros ? ?. apply report_NoDup.
Qed.

Lemma getSimilarObjects_no_input fuel id :
  id ∈ collected (search fuel).2 → id ∉ ids.
Proof.
  revert id. apply (getSimilarObjects_collected (λ r, ∀ id, id ∈ r → id ∉ ids)).
  - intros id Hin. by apply elem_of_nil in Hin.
  - intros s r Hr id Hin.
    apply report_elem_of in Hin as [Hin|Hin]; [by apply Hr|].
    by apply removeInput_elem_of in Hin as [? _].
Qed.

(** Every call to the network carries the same bound. *)
Lemma getSimilarObjects_calls fuel :
  Forall (λ call : NetworkCall, call.2 = maxDistance this) (search fuel).1.
Proof.
  destruct (decide (getMatchingRefVectorsPosition ids objectPositions = []))
    as [Hempty|Hfound].
  - rewrite getSimilarObjects_unresolved by done. apply Forall_nil_2.
  - rewrite getSimilarObjects_resolved by done. apply searchLoop_calls.
Qed.

Lemma getSimilarObjects_returns network cells :
  _network this = Some network →
  answersFreshCells network cells (maxDistance this) →
  ∃ calls res, returnsWith search calls res.
Proof.
  intros Hnet Hfresh.
  destruct (decide (getMatchingRefVectorsPosition ids objectPositions = []))
    as [Hempty|Hfound].
  - exists [], [], 0. intros fuel _. by apply getSimilarObjects_unresolved.
  - set (searched := getMatchingRefVectorsPosition ids objectPositions) in *.
    set (fuel0 := S (size (unsearched cells searched))).
    destruct (searchLoop_terminates this ids objectMatrix maxCount network
                cells Hnet Hfresh fuel0 searched []) as (calls & res & Hrun);
      [unfold fuel0; lia|].
    exists calls, res, fuel0. intros fuel Hfuel.
    rewrite getSimilarObjects_resolved by done.
    by apply (searchLoop_fuel_mono _ _ _ _ fuel0).
Qed.

Lemma getSimilarObjects_grows fuel fuel' :
  fuel ≤ fuel' →
  collected (search fuel).2 `prefix_of` collected (search fuel').2.
Proof.
  intros Hle.
  destruct (decide (getMatchingRefVectorsPosition ids objectPositions = []))
    as [Hempty|Hfound].
  - by rewrite !getSimilarObjects_unresolved.
  - rewrite !getSimilarObjects_resolved by done. by apply searchLoop_grows.
Qed.

Lemma getSimilarObjects_calls_bound network cells fuel :
  _network this = Some network →
  answersFreshCells network cells (maxDistance this) →
  length (search fuel).1 ≤ S (length cells).
Proof.
  intros Hnet Hfresh.
  destruct (decide (getMatchingRefVectorsPosition ids objectPositions = []))
    as [Hempty|Hfound].
  - rewrite getSimilarObjects_unresolved by done. simpl. lia.
  - rewrite getSimilarObjects_resolved by done.
    etrans; [by eapply searchLoop_calls_bound|].
    apply le_n_S, size_unsearched.
Qed.

(** A returned result is the [res] of an outcome. *)
Lemma returnsWith_collected calls res :
  returnsWith search calls res → ∃ fuel, collected (search fuel).2 = res.
Proof. intros [fuel0 Hrun]. exists fuel0. by rewrite Hrun. Qed.

End SimilarObjects.

(** * The demonstration snapshot *)

Lemma demo_network_fresh distance :
  answersFreshCells Demo.network Demo.cells distance.
Proof.
  intros searched p Hp. simpl in Hp.
  destruct (filter (λ q, q ∉ searched) Demo.cells) as [|q rest] eqn:Hf;
    [done|].
  injection Hp as ->.
  assert (p ∈ filter (λ q, q ∉ searched) Demo.cells) as Hin
    by (rewrite Hf; by left).
  apply list_elem_of_filter in Hin as [??]. done.
Qed.

(** * Discovery order *)

Section DiscoveryLemmas.
Context {IdType : Type} `{Countable IdType}.
Context {TrackArtistLinkType : Type} `{Countable TrackArtistLinkType}.
Variable this : FeaturesEngine TrackArtistLinkType.
Variable ids : list IdType.
Variable objectMatrix : Matrix (list IdType).
Variable maxCount : nat.

(** The candidates of a pass: what the cells of the positions searched
    hold, in [getObjectsIds] order, the seeds left out. *)
Local Abbreviation candidates searched :=
  (removeInput ids (getObjectsIds searched objectMatrix)).

Local Abbreviation loop := (searchLoop this ids objectMatrix maxCount).

Lemma getObjectsIds_prefix (searched searched' : list Position) :
  searched `prefix_of` searched' →
  getObjectsIds searched objectMatrix
  `prefix_of` getObjectsIds searched' objectMatrix.
Proof.
  intros [more ->]. unfold getObjectsIds. rewrite foldl_app.
  apply objects_fold_prefix.
Qed.

Lemma candidates_prefix (searched searched' : list Position) :
  searched `prefix_of` searched' →
  candidates searched `prefix_of` candidates searched'.
Proof.
  intros Hprefix. apply getObjectsIds_prefix in Hprefix as [more ->].
  unfold removeInput. rewrite filter_app. by apply prefix_app_r.
Qed.

Lemma filter_reported_prefix (res rest : list IdType) :
  NoDup (res ++ rest) → filter (λ id, id ∉ res) (res ++ rest) = rest.
Proof.
  intros Hnd. apply NoDup_app in Hnd as (_ & Hdisjoint & _).
  rewrite filter_app.
  assert (filter (λ id, id ∉ res) res = []) as ->.
  { assert (∀ l : list IdType, (∀ id, id ∈ l → id ∈ res) →
                               filter (λ id, id ∉ res) l = []) as Hnone.
    { induction l as [|a l IH]; intros Hall; [done|].
      rewrite filter_cons_False by (intros Hnot; apply Hnot, Hall; by left).
      apply IH. intros id Hid. apply Hall. by right. }
    by apply Hnone. }
  simpl. induction rest as [|a rest IH]; [done|].
  rewrite filter_cons_True.
  - f_equal. apply IH. intros id Hid Hrest. eapply Hdisjoint; [done|by right].
  - intros Hin. eapply Hdisjoint; [done|by left].
Qed.

(** A pass that starts from first candidates reports the first [maxCount]
    candidates. *)
Lemma report_prefix_take (res closest : list IdType) :
  NoDup closest → res `prefix_of` closest → length res ≤ maxCount →
  report maxCount res closest = take maxCount closest.
Proof.
  intros Hnd [rest ->] Hlen. rewrite report_app by done.
  rewrite filter_reported_prefix by done.
  rewrite take_app, (take_ge res) by done. done.
Qed.

Lemma answers_nil : answers this [] = [].
Proof. unfold answers. by destruct (_network this). Qed.

Lemma answers_cons network (call : NetworkCall) calls :
  _network this = Some network →
  answers this (call :: calls)
  = match getClosestRefVectorPosition network call.1 call.2 with
    | Some p => p :: answers this calls
    | None => answers this calls
    end.
Proof. intros Hnet. unfold answers. rewrite Hnet. done. Qed.

(** The result a run returns is made of the first [maxCount] candidates of
    the positions searched: those it started from, then the answers to its
    calls. *)
Lemma searchLoop_discovery fuel searched res calls found :
  res `prefix_of` candidates searched →
  length res ≤ maxCount →
  loop fuel searched res = (calls, Returned found) →
  found
  = take maxCount (candidates (searchedPositions this searched calls)).
Proof.
  revert searched res calls. induction fuel as [|fuel IH];
    intros searched res calls Hprefix Hlen Hrun; [done|].
  rewrite searchLoop_S in Hrun.
  rewrite (report_prefix_take res (candidates searched)) in Hrun
    by (done || apply removeInput_NoDup, getObjectsIds_NoDup).
  unfold searchedPositions.
  case_decide.
  { injection Hrun as <- <-. by rewrite answers_nil. }
  destruct (_network this) as [network|] eqn:Hnet; [|done].
  destruct (getClosestRefVectorPosition network searched (maxDistance this))
    as [p|] eqn:Hp.
  - destruct (loop fuel (push_back_if_not_present searched p) _)
      as [calls' outcome] eqn:Hrec.
    simpl in Hrun. injection Hrun as <- ->.
    rewrite (answers_cons network) by done. cbn [fst snd]. rewrite Hp.
    cbn [foldl]. eapply IH; [| |exact Hrec].
    + etrans; [apply prefix_take|].
      apply candidates_prefix, prefix_push_back.
    + rewrite length_take. lia.
  - injection Hrun as <- <-.
    rewrite (answers_cons network) by done. cbn [fst snd]. rewrite Hp.
    unfold answers. by rewrite Hnet.
Qed.

(** Every call recorded was made on the positions searched by then, with
    three quarters of the median as bound. *)
Lemma searchLoop_calls_searched fuel searched res k (call : NetworkCall) :
  (loop fuel searched res).1 !! k = Some call →
  call
  = (searchedPositions this searched (take k (loop fuel searched res).1),
     maxDistance this).
Proof.
  revert searched res k. induction fuel as [|fuel IH];
    intros searched res k; [done|].
  rewrite searchLoop_S. unfold searchedPositions.
  case_decide; [done|].
  destruct (_network this) as [network|] eqn:Hnet; [|done].
  destruct (getClosestRefVectorPosition network searched (maxDistance this))
    as [p|] eqn:Hp; cbn [fst snd].
  - destruct k as [|k].
    + rewrite take_0. unfold answers. rewrite Hnet. by intros [= <-].
    + cbn [take]. rewrite (answers_cons network) by done. cbn [fst snd].
      rewrite Hp. intros Hcall. by apply IH.
  - destruct k as [|k]; [|done].
    rewrite take_0. unfold answers. rewrite Hnet. by intros [= <-].
Qed.

End DiscoveryLemmas.

Section DiscoveryOfSimilarObjects.
Context {IdType : Type} `{Countable IdType}.
Context {TrackArtistLinkType : Type} `{Countable TrackArtistLinkType}.
Variable this : FeaturesEngine TrackArtistLinkType.
Variable ids : list IdType.
Variable objectMatrix : Matrix (list IdType).
Variable objectPositions : gmap IdType (list Position).
Variable maxCount : nat.

Local Abbreviation search :=
  (getSimilarObjects this ids objectMatrix objectPositions maxCount).
Local Abbreviation resolved :=
  (getMatchingRefVectorsPosition ids objectPositions).

Lemma getSimilarObjects_discovery fuel calls found :
  search fuel = (calls, Returned found) →
  found
  = take maxCount
      (removeInput ids
         (getObjectsIds (searchedPositions this resolved calls) objectMatrix)).
Proof.
  intros Hrun.
  destruct (decide (resolved = [])) as [Hempty|Hfound].
  - rewrite getSimilarObjects_unresolved in Hrun by done.
    injection Hrun as <- <-. rewrite Hempty.
    unfold searchedPositions. rewrite answers_nil. cbn [foldl].
    change (getObjectsIds [] objectMatrix) with (@nil IdType).
    change (removeInput ids []) with (@nil IdType). by rewrite take_nil.
  - rewrite getSimilarObjects_resolved in Hrun by done.
    eapply searchLoop_discovery; [apply prefix_nil|simpl; lia|done].
Qed.

Lemma getSimilarObjects_calls_searched fuel k (call : NetworkCall) :
  (search fuel).1 !! k = Some call →
  call
  = (searchedPositions this resolved (take k (search fuel).1),
     maxDistance this).
Proof.
  destruct (decide (resolved = [])) as [Hempty|Hfound].
  - by rewrite getSimilarObjects_unresolved.
  - rewrite getSimilarObjects_resolved by done.
    apply searchLoop_calls_searched.
Qed.

End DiscoveryOfSimilarObjects.

(** * The specification's guarantees *)

Section Guarantees.
Context {IdType : Type} `{Countable IdType}.
Context {TrackArtistLinkType : Type} `{Countable TrackArtistLinkType}.
Implicit Types (this : FeaturesEngine TrackArtistLinkType).
Implicit Types (ids : list IdType) (objectMatrix : Matrix (list IdType)).
Implicit Types (objectPositions : gmap IdType (list Position)).
Implicit Types (maxCount fuel : nat).

(** C1. The result never holds more than [maxCount] ids: the bound holds
    of the [res] vector after any number of passes, hence of whatever is
    returned; and with a network that only answers with unsearched cells
    of a finite grid the search does return, a result of at most
    [maxCount] ids. *)
Theorem getSimilarObjects_at_most_maxCount
    this ids objectMatrix objectPositions maxCount :
  (∀ fuel,
     length (collected (getSimilarObjects this ids objectMatrix
                          objectPositions maxCount fuel).2) ≤ maxCount)
  ∧ (∀ network cells,
       _network this = Some network →
       answersFreshCells network cells (maxDistance this) →
       ∃ calls res,
         returnsWith (getSimilarObjects this ids objectMatrix
                        objectPositions maxCount) calls res
         ∧ length res ≤ maxCount).
Proof.
  split; [intros fuel; apply getSimilarObjects_length|].
  intros network cells Hnet Hfresh.
  destruct (getSimilarObjects_returns this ids objectMatrix objectPositions
              maxCount network cells Hnet Hfresh) as (calls & res & Hret).
  exists calls, res. split; [done|].
  destruct (returnsWith_collected _ _ _ _ _ _ _ Hret) as [fuel <-].
  apply getSimilarObjects_length.
Qed.

(** C2. No id of the input list is ever reported: none occurs in the
    [res] vector after any number of passes, and the result returned
    under the termination precondition holds none. *)
Theorem getSimilarObjects_excludes_input
    this ids objectMatrix objectPositions maxCount :
  (∀ fuel id,
     id ∈ collected (getSimilarObjects this ids objectMatrix
                       objectPositions maxCount fuel).2 →
     id ∉ ids)
  ∧ (∀ network cells,
       _network this = Some network →
       answersFreshCells network cells (maxDistance this) →
       ∃ calls res,
         returnsWith (getSimilarObjects this ids objectMatrix
                        objectPositions maxCount) calls res
         ∧ ∀ id, id ∈ res → id ∉ ids).
Proof.
  split; [intros fuel id; apply getSimilarObjects_no_input|].
  intros network cells Hnet Hfresh.
  destruct (getSimilarObjects_returns this ids objectMatrix objectPositions
              maxCount network cells Hnet Hfresh) as (calls & res & Hret).
  exists calls, res. split; [done|].
  destruct (returnsWith_collected _ _ _ _ _ _ _ Hret) as [fuel <-].
  intros id. apply getSimilarObjects_no_input.
Qed.

(** C3. No id is reported twice, and ids are appended in the order they
    are found: the [res] vector is duplicate-free after any number of
    passes; a pass appends to it the candidates not reported before, in the
    order [getObjectsIds] found them, up to [maxCount]; what later passes
    report comes after what earlier passes reported; the result returned
    under the termination precondition is duplicate-free.  The sequence
    returned is the discovery sequence itself, cut at [maxCount]: the ids
    held by the cells of the positions searched, in the order
    [getObjectsIds] goes through these cells, seeds left out, where the
    positions searched are those resolved from the seeds followed by the
    answers of the network in the order of the calls; and each call was
    made on the positions searched by then. *)
Theorem getSimilarObjects_no_duplicates_in_discovery_order
    this ids objectMatrix objectPositions maxCount :
  (∀ fuel,
     NoDup (collected (getSimilarObjects this ids objectMatrix
                         objectPositions maxCount fuel).2))
  ∧ (∀ searched res,
       length res ≤ maxCount →
       report maxCount res
         (removeInput ids (getObjectsIds searched objectMatrix))
       = res ++ take (maxCount - length res)
                  (filter (λ id, id ∉ res)
                     (removeInput ids (getObjectsIds searched objectMatrix))))
  ∧ (∀ fuel fuel',
       fuel ≤ fuel' →
       collected (getSimilarObjects this ids objectMatrix
                    objectPositions maxCount fuel).2
       `prefix_of`
       collected (getSimilarObjects this ids objectMatrix
                    objectPositions maxCount fuel').2)
  ∧ (∀ network cells,
       _network this = Some network →
       answersFreshCells network cells (maxDistance this) →
       ∃ calls res,
         returnsWith (getSimilarObjects this ids objectMatrix
                        objectPositions maxCount) calls res
         ∧ NoDup res)
  ∧ (∀ fuel calls found,
       getSimilarObjects this ids objectMatrix objectPositions maxCount fuel
       = (calls, Returned found) →
       found
       = take maxCount
           (removeInput ids
              (getObjectsIds
                 (searchedPositions this
                    (getMatchingRefVectorsPosition ids objectPositions) calls)
                 objectMatrix))
       ∧ ∀ k call,
           calls !! k = Some call →
           call
           = (searchedPositions this
                (getMatchingRefVectorsPosition ids objectPositions)
                (take k calls),
              maxDistance this)).
Proof.
  split_and!.
  - intros fuel. apply getSimilarObjects_NoDup.
  - intros searched res Hlen. apply report_app; [|done].
    apply removeInput_NoDup, getObjectsIds_NoDup.
  - intros fuel fuel'. apply getSimilarObjects_grows.
  - intros network cells Hnet Hfresh.
    destruct (getSimilarObjects_returns this ids objectMatrix objectPositions
                maxCount network cells Hnet Hfresh) as (calls & res & Hret).
    exists calls, res. split; [done|].
    destruct (returnsWith_collected _ _ _ _ _ _ _ Hret) as [fuel <-].
    apply getSimilarObjects_NoDup.
  - intros fuel calls found Hrun. split.
    + by eapply getSimilarObjects_discovery.
    + intros k call Hcall.
      pose proof (getSimilarObjects_calls_searched this ids objectMatrix
                    objectPositions maxCount fuel k call) as Hsearched.
      rewrite Hrun in Hsearched. by apply Hsearched.
Qed.

(** C4. With no seed, or with seeds none of which has an entry in the
    position index, no position is resolved and the empty result is
    returned before the loop is entered: for any number of passes allowed,
    none included, and without any call to the network. *)
Theorem getSimilarObjects_unresolved_seeds
    this ids objectMatrix objectPositions maxCount fuel :
  ids = [] ∨ (∀ id, id ∈ ids → objectPositions !! id = None) →
  getMatchingRefVectorsPosition ids objectPositions = []
  ∧ getSimilarObjects this ids objectMatrix objectPositions maxCount fuel
    = ([], Returned []).
Proof.
  intros Hseeds.
  assert (getMatchingRefVectorsPosition ids objectPositions = []) as Hnil.
  { destruct Hseeds as [->|Hnone]; [done|].
    by apply getMatchingRefVectorsPosition_unresolved. }
  split; [done|]. by apply getSimilarObjects_unresolved.
Qed.

(** C10. Asked for no id at all, the search returns the empty result
    after at most one pass and without calling the network, whatever the
    engine holds (a network or none), whatever the seeds and the cells
    they resolve to. *)
Theorem getSimilarObjects_maxCount_zero
    this ids objectMatrix objectPositions fuel :
  getSimilarObjects this ids objectMatrix objectPositions 0 (S fuel)
  = ([], Returned []).
Proof.
  unfold getSimilarObjects.
  destruct (getMatchingRefVectorsPosition ids objectPositions) as [|p ps];
    [done|].
  rewrite searchLoop_S.
  assert (∀ closest : list IdType, report 0 [] closest = []) as Hreport
    by (by intros [|??]).
  by rewrite Hreport.
Qed.

End Guarantees.

(** C5. An engine without snapshot has no network and empty position
    indices.  Whatever ids a query starts from and whatever matrix it reads,
    the search behind it returns the empty result without touching the
    absent network: for tracks (also those of a track list), for releases,
    and for artists under any link type. *)
Theorem getSimilarObjects_no_snapshot
    {TrackArtistLinkType : Type} `{Countable TrackArtistLinkType}
    (this : FeaturesEngine TrackArtistLinkType) (maxCount fuel : nat) :
  _network this = None →
  _trackPositions this = ∅ →
  _releasePositions this = ∅ →
  _artistPositions this = ∅ →
  (∀ trackIds : list TrackId,
     getSimilarObjects this trackIds (_trackMatrix this)
       (_trackPositions this) maxCount fuel = ([], Returned []))
  ∧ (∀ releaseIds : list ReleaseId,
       getSimilarObjects this releaseIds (_releaseMatrix this)
         (_releasePositions this) maxCount fuel = ([], Returned []))
  ∧ (∀ (artistIds : list ArtistId) (artistMatrix : ObjectMatrix ArtistId),
       getSimilarObjects this artistIds artistMatrix
         (_artistPositions this) maxCount fuel = ([], Returned [])).
Proof.
  intros _ -> -> ->.
  split_and!; intros; apply getSimilarObjects_unresolved,
    getMatchingRefVectorsPosition_unresolved; intros; apply lookup_empty.
Qed.

(** * Scenarios *)

Section Scenarios.
Context {IdType : Type} `{Countable IdType}.
Context {TrackArtistLinkType : Type} `{Countable TrackArtistLinkType}.
Implicit Types (this : FeaturesEngine TrackArtistLinkType).
Implicit Types (ids : list IdType) (objectMatrix : Matrix (list IdType)).
Implicit Types (objectPositions : gmap IdType (list Position)).

Lemma NoDup_singleton_eq (l : list IdType) (b : IdType) :
  NoDup l → (∀ id, id ∈ l ↔ id = b) → l = [b].
Proof.
  intros Hnd Hl. apply Permutation_singleton_r.
  apply NoDup_Permutation; [done|apply NoDup_singleton|].
  intros id. by rewrite Hl, list_elem_of_singleton.
Qed.

(** The candidates a search from [A] finds in a cell shared by [A] and [B]
    only. *)
Lemma shared_cell_candidates objectMatrix (A B : IdType) (cell : Position) :
  A ≠ B →
  (∀ id, id ∈ get objectMatrix cell ↔ id = A ∨ id = B) →
  removeInput [A] (getObjectsIds [cell] objectMatrix) = [B].
Proof.
  intros Hne Hcell. apply NoDup_singleton_eq.
  - apply removeInput_NoDup, getObjectsIds_NoDup.
  - intros id. rewrite removeInput_elem_of, getObjectsIds_elem_of,
      list_elem_of_singleton. split.
    + intros (Hid & p & Hp & Hin). apply list_elem_of_singleton in Hp as ->.
      apply Hcell in Hin as [-> | ->]; done.
    + intros ->. split; [done|]. exists cell. split; [by left|].
      apply Hcell. by right.
Qed.

(** ... and in that cell followed by a cell that holds [C] only. *)
Lemma second_cell_candidates objectMatrix (A B C : IdType)
    (cell next : Position) :
  A ≠ B → A ≠ C → B ≠ C →
  (∀ id, id ∈ get objectMatrix cell ↔ id = A ∨ id = B) →
  (∀ id, id ∈ get objectMatrix next ↔ id = C) →
  removeInput [A] (getObjectsIds [cell; next] objectMatrix) = [B; C].
Proof.
  intros HAB HAC HBC Hcell Hnext.
  change (getObjectsIds [cell; next] objectMatrix)
    with (foldl push_back_if_not_present (getObjectsIds [cell] objectMatrix)
            (get objectMatrix next)).
  rewrite (foldl_push_back_single _ _ C Hnext).
  - unfold removeInput. rewrite filter_app.
    fold (removeInput [A] (getObjectsIds [cell] objectMatrix)).
    rewrite (shared_cell_candidates _ _ _ _ HAB Hcell).
    rewrite filter_cons_True by (by intros ?%list_elem_of_singleton).
    done.
  - rewrite getObjectsIds_elem_of. intros (p & Hp & Hin).
    apply list_elem_of_singleton in Hp as ->.
    apply Hcell in Hin as [-> | ->]; done.
Qed.

Lemma single_seed_position objectPositions (A : IdType) (cell : Position) :
  objectPositions !! A = Some [cell] →
  getMatchingRefVectorsPosition [A] objectPositions = [cell].
Proof. intros HA. by rewrite (getMatchingRefVectorsPosition_single _ _ _ HA). Qed.

(** C6. A pass that leaves fewer than [maxCount] ids reported asks the
    network once, for the closest position to those searched, within
    [0.75] times the median distance.  Without an answer the search returns
    what is reported, fewer ids than asked for; with an answer the loop goes
    on with that one position added.  No call to the network carries
    another bound.  So a search for five ids from [A],
    whose cell [A] shares with [B] only and from which the network finds no
    cell close enough, returns exactly [B], after that single call. *)
Theorem getSimilarObjects_asks_one_closer_position
    this network objectMatrix :
  _network this = Some network →
  (∀ ids maxCount fuel searched res,
     let reported :=
       report maxCount res
         (removeInput ids (getObjectsIds searched objectMatrix)) in
     let call :=
       (searched, (_networkRefVectorsDistanceMedian this * 0.75)%float) in
     length reported < maxCount →
     match getClosestRefVectorPosition network searched
             (_networkRefVectorsDistanceMedian this * 0.75)%float with
     | None =>
       searchLoop this ids objectMatrix maxCount (S fuel) searched res
       = ([call], Returned reported)
     | Some position =>
       searchLoop this ids objectMatrix maxCount (S fuel) searched res
       = let '(calls, outcome) :=
           searchLoop this ids objectMatrix maxCount fuel
             (push_back_if_not_present searched position) reported in
         (call :: calls, outcome)
     end)
  ∧ (∀ ids objectPositions maxCount fuel,
       Forall (λ call : NetworkCall,
                 call.2 = (_networkRefVectorsDistanceMedian this * 0.75)%float)
              (getSimilarObjects this ids objectMatrix objectPositions
                 maxCount fuel).1)
  ∧ (∀ objectPositions (A B : IdType) (cell : Position),
       A ≠ B →
       objectPositions !! A = Some [cell] →
       (∀ id, id ∈ get objectMatrix cell ↔ id = A ∨ id = B) →
       getClosestRefVectorPosition network [cell]
         (_networkRefVectorsDistanceMedian this * 0.75)%float = None →
       returnsWith (getSimilarObjects this [A] objectMatrix objectPositions 5)
         [([cell], (_networkRefVectorsDistanceMedian this * 0.75)%float)]
         [B]).
Proof.
  intros Hnet. split_and!.
  - intros ids maxCount fuel searched res reported call Hlen.
    change (searchLoop this ids objectMatrix maxCount (S fuel) searched res)
      with (if decide (length reported = maxCount)
            then ([], Returned reported)
            else match _network this with
                 | None => ([], NullNetwork reported)
                 | Some network =>
                   match getClosestRefVectorPosition network searched
                           (maxDistance this) with
                   | None => ([call], Returned reported)
                   | Some p =>
                     let '(calls, outcome) :=
                       searchLoop this ids objectMatrix maxCount fuel
                         (push_back_if_not_present searched p) reported in
                     (call :: calls, outcome)
                   end
                 end).
    rewrite decide_False, Hnet by lia. unfold maxDistance.
    by destruct (getClosestRefVectorPosition _ _ _).
  - intros ids objectPositions maxCount fuel.
    apply getSimilarObjects_calls.
  - intros objectPositions A B cell Hne HA Hcell Hnone.
    exists 1. intros fuel Hfuel. destruct fuel as [|fuel]; [lia|].
    unfold getSimilarObjects. rewrite (single_seed_position _ _ _ HA).
    rewrite searchLoop_S, (shared_cell_candidates _ _ _ _ Hne Hcell), Hnet.
    unfold maxDistance. by rewrite Hnone.
Qed.

(** C7. Two tracks are asked for from [A], whose cell (0,0) it shares with
    [B] only, while [C] alone sits in cell (0,1); what the other cells hold
    plays no part.  [B] is reported first, [A] never, and never more than
    two ids.  If the network finds cell (0,1) within [0.75] times the median
    distance of cell (0,0), the search returns [B] then [C], after that one
    call. *)
Theorem getSimilarObjects_same_cell_first
    this network objectMatrix objectPositions (A B C : IdType) :
  A ≠ B → A ≠ C → B ≠ C →
  _network this = Some network →
  objectPositions !! A = Some [mkPosition 0 0] →
  (∀ id, id ∈ get objectMatrix (mkPosition 0 0) ↔ id = A ∨ id = B) →
  (∀ id, id ∈ get objectMatrix (mkPosition 0 1) ↔ id = C) →
  (∀ fuel,
     let reported :=
       collected (getSimilarObjects this [A] objectMatrix
                    objectPositions 2 (S fuel)).2 in
     (∃ others, reported = B :: others)
     ∧ (A ∉ reported) ∧ length reported ≤ 2)
  ∧ (getClosestRefVectorPosition network [mkPosition 0 0]
       (_networkRefVectorsDistanceMedian this * 0.75)%float
     = Some (mkPosition 0 1) →
     returnsWith (getSimilarObjects this [A] objectMatrix objectPositions 2)
       [([mkPosition 0 0],
         (_networkRefVectorsDistanceMedian this * 0.75)%float)]
       [B; C]).
Proof.
  intros HAB HAC HBC Hnet HA H00 H01.
  pose proof (single_seed_position _ _ _ HA) as Hseed.
  pose proof (shared_cell_candidates _ _ _ _ HAB H00) as Hfirst.
  split.
  - intros fuel reported. subst reported. split_and!.
    + unfold getSimilarObjects. rewrite Hseed, searchLoop_S, Hfirst, Hnet.
      simpl. destruct (getClosestRefVectorPosition _ _ _) as [p|];
        [|by exists []].
      simpl. apply (searchLoop_prefix this [A] objectMatrix 2 fuel).
    + intros Hin. apply getSimilarObjects_no_input in Hin. apply Hin. by left.
    + apply getSimilarObjects_length.
  - intros Hclose. exists 2. intros fuel Hfuel.
    destruct fuel as [|[|fuel]]; [lia|lia|].
    unfold getSimilarObjects. rewrite Hseed, searchLoop_S, Hfirst, Hnet.
    unfold maxDistance. rewrite Hclose.
    change (report 2 [] [B]) with [B].
    rewrite decide_False by (simpl; lia).
    rewrite push_back_absent by (by intros ?%list_elem_of_singleton).
    cbn [app].
    rewrite searchLoop_S, (second_cell_candidates _ _ _ _ _ _ HAB HAC HBC H00 H01).
    rewrite report_cons by (simpl; lia).
    rewrite push_back_present by (by left).
    rewrite report_cons by (simpl; lia).
    rewrite push_back_absent by (by intros ?%list_elem_of_singleton).
    rewrite report_full by done. by rewrite decide_True.
Qed.

End Scenarios.

(** * Termination *)

Section Termination.
Context {IdType : Type} `{Countable IdType}.
Context {TrackArtistLinkType : Type} `{Countable TrackArtistLinkType}.
Implicit Types (this : FeaturesEngine TrackArtistLinkType).
Implicit Types (ids : list IdType) (objectMatrix : Matrix (list IdType)).
Implicit Types (objectPositions : gmap IdType (list Position)).

(** C9. When the network only answers with cells of a finite grid that are
    not among the positions it is given, the search returns.  The positions
    searched start without repetition; every pass that goes on adds exactly
    one position, keeps them without repetition and leaves fewer cells to
    search, so that the network is called at most once more than there are
    cells.  Without the precondition the loop may run for ever: as soon as
    the network answers with a position searched already, while fewer than
    [maxCount] ids are reported, no number of passes ends it. *)
Theorem getSimilarObjects_terminates :
  (∀ this network cells ids objectMatrix objectPositions maxCount,
     _network this = Some network →
     answersFreshCells network cells (maxDistance this) →
     (∃ calls res,
        returnsWith (getSimilarObjects this ids objectMatrix
                       objectPositions maxCount) calls res
        ∧ length calls ≤ S (length cells))
     ∧ NoDup (getMatchingRefVectorsPosition ids objectPositions)
     ∧ (∀ searched position,
          NoDup searched →
          getClosestRefVectorPosition network searched (maxDistance this)
          = Some position →
          NoDup (push_back_if_not_present searched position)
          ∧ length (push_back_if_not_present searched position)
            = S (length searched)
          ∧ size (unsearched cells
                    (push_back_if_not_present searched position))
            < size (unsearched cells searched)))
  ∧ (∀ this network ids objectMatrix maxCount searched res position,
       _network this = Some network →
       getClosestRefVectorPosition network searched (maxDistance this)
       = Some position →
       position ∈ searched →
       length (report maxCount res
                 (removeInput ids (getObjectsIds searched objectMatrix)))
       < maxCount →
       ∀ fuel, ∃ reported,
         (searchLoop this ids objectMatrix maxCount fuel searched res).2
         = OutOfFuel searched reported).
Proof.
  split.
  - intros this network cells ids objectMatrix objectPositions maxCount
      Hnet Hfresh. split_and!.
    + destruct (getSimilarObjects_returns this ids objectMatrix
                  objectPositions maxCount network cells Hnet Hfresh)
        as (calls & res & Hret).
      exists calls, res. split; [done|].
      destruct Hret as [fuel0 Hrun].
      pose proof (getSimilarObjects_calls_bound this ids objectMatrix
                    objectPositions maxCount network cells fuel0 Hnet Hfresh)
        as Hbound.
      by rewrite (Hrun fuel0) in Hbound.
    + apply getMatchingRefVectorsPosition_NoDup.
    + intros searched position Hnd Hanswer.
      apply Hfresh in Hanswer as [Hcell Hnew]. split_and!.
      * by apply NoDup_push_back.
      * rewrite length_push_back. by rewrite decide_False.
      * by apply unsearched_push_back.
  - intros this network ids objectMatrix maxCount searched res position
      Hnet Hanswer Hin Hlen fuel.
    eexists. eapply searchLoop_stuck; [done..|lia].
Qed.

End Termination.

(** * The cache codec *)

Section CacheCodecLemmas.
Context {Category : Type} `{Countable Category}.
Variable formatVersion : N.

Lemma decode_positionIndex (index : gmap Category (gmap Z (list Position))) :
  (λ entries, list_to_map entries : gmap Z (list Position))
  <$> (list_to_map (map_to_list (map_to_list <$> index))
       : gmap Category (list (Z * list Position)))
  = index.
Proof.
  rewrite list_to_map_to_list, <-map_fmap_compose.
  rewrite <-(map_fmap_id index) at 2. apply map_fmap_ext.
  intros category positions _. simpl. apply list_to_map_to_list.
Qed.

Lemma decode_cells (matrix : gmap Position (gset Z)) :
  (λ ids, list_to_set ids : gset Z)
  <$> (list_to_map (map_to_list (elements <$> matrix))
       : gmap Position (list Z))
  = matrix.
Proof.
  rewrite list_to_map_to_list, <-map_fmap_compose.
  rewrite <-(map_fmap_id matrix) at 2. apply map_fmap_ext.
  intros position ids _. simpl. apply list_to_set_elements_L.
Qed.

Lemma decode_gridMatrix (matrices : gmap Category (gmap Position (gset Z))) :
  (λ entries,
     (λ ids, list_to_set ids : gset Z)
     <$> (list_to_map entries : gmap Position (list Z)))
  <$> (list_to_map
         (map_to_list ((λ matrix : gmap Position (gset Z),
                          map_to_list (elements <$> matrix)) <$> matrices))
       : gmap Category (list (Position * list Z)))
  = matrices.
Proof.
  rewrite list_to_map_to_list, <-map_fmap_compose.
  rewrite <-(map_fmap_id matrices) at 2. apply map_fmap_ext.
  intros category matrix _. simpl. apply decode_cells.
Qed.

(** C8. A snapshot whose reference vectors all have the expected number
    of components is read back from its own encoding as it was: same grid
    dimensions and reference vectors, same position index and same grid
    matrix for every category. *)
Theorem decode_encode
    (snapshot : CacheCodec.Snapshot Category) (expectedDimensions : nat) :
  Forall (λ vector, length vector = expectedDimensions)
         (CacheCodec.referenceVectors (CacheCodec.network snapshot)) →
  CacheCodec.decode formatVersion
    (CacheCodec.encode formatVersion snapshot) expectedDimensions
  = CacheCodec.Decoded snapshot.
Proof.
  intros Hdims. destruct snapshot as [[width height vectors] index matrices].
  unfold CacheCodec.decode, CacheCodec.encode. simpl in *.
  rewrite decide_True by done. rewrite decide_True by done.
  by rewrite decode_positionIndex, decode_gridMatrix.
Qed.

(** A blob written for other feature settings is refused. *)
Lemma decode_refuses_other_dimensions
    (snapshot : CacheCodec.Snapshot Category) (expectedDimensions : nat) :
  ¬ Forall (λ vector, length vector = expectedDimensions)
           (CacheCodec.referenceVectors (CacheCodec.network snapshot)) →
  CacheCodec.decode formatVersion
    (CacheCodec.encode formatVersion snapshot) expectedDimensions
  = CacheCodec.IncompatibleCache.
Proof.
  intros Hdims. unfold CacheCodec.decode, CacheCodec.encode. simpl.
  rewrite decide_True by done. by rewrite decide_False.
Qed.

Lemma decode_refuses_other_version
    (blob : CacheCodec.CacheBlob Category) (expectedDimensions : nat) :
  CacheCodec.versionTag blob ≠ formatVersion →
  CacheCodec.decode formatVersion blob expectedDimensions
  = CacheCodec.IncompatibleCache.
Proof. intros Htag. unfold CacheCodec.decode. by rewrite decide_False. Qed.

End CacheCodecLemmas.

(** * The theorems at work on the demonstration snapshot *)

Lemma demo_cell00 (id : TrackId) :
  id ∈ get Demo.trackMatrix (mkPosition 0 0) ↔ id = 1%Z ∨ id = 2%Z.
Proof.
  change (get Demo.trackMatrix (mkPosition 0 0)) with [1%Z; 2%Z].
  by rewrite elem_of_cons, list_elem_of_singleton.
Qed.

Lemma demo_cell01 (id : TrackId) :
  id ∈ get Demo.trackMatrix (mkPosition 0 1) ↔ id = 3%Z.
Proof.
  change (get Demo.trackMatrix (mkPosition 0 1)) with [3%Z].
  by rewrite list_elem_of_singleton.
Qed.

(** C1 on the demonstration snapshot: a search from track 1 for two
    tracks. *)
Lemma getSimilarObjects_at_most_maxCount_witness :
  ∃ calls res,
    returnsWith (getSimilarObjects (Demo.engine (Some Demo.network)) [1%Z]
                   Demo.trackMatrix Demo.trackPositions 2) calls res
    ∧ length res ≤ 2.
Proof.
  exact (proj2 (getSimilarObjects_at_most_maxCount
                  (Demo.engine (Some Demo.network)) [1%Z]
                  Demo.trackMatrix Demo.trackPositions 2)
               Demo.network Demo.cells eq_refl (demo_network_fresh _)).
Defined.

(** C2 on the demonstration snapshot. *)
Lemma getSimilarObjects_excludes_input_witness :
  ∃ calls res,
    returnsWith (getSimilarObjects (Demo.engine (Some Demo.network)) [1%Z; 3%Z]
                   Demo.trackMatrix Demo.trackPositions 5) calls res
    ∧ ∀ id, id ∈ res → id ∉ [1%Z; 3%Z].
Proof.
  exact (proj2 (getSimilarObjects_excludes_input
                  (Demo.engine (Some Demo.network)) [1%Z; 3%Z]
                  Demo.trackMatrix Demo.trackPositions 5)
               Demo.network Demo.cells eq_refl (demo_network_fresh _)).
Defined.

(** C3 on the demonstration snapshot. *)
Lemma getSimilarObjects_no_duplicates_in_discovery_order_witness :
  report 2 [2%Z]
    (removeInput [1%Z]
       (getObjectsIds [Demo.cell00; Demo.cell01] Demo.trackMatrix))
  = [2%Z] ++ take (2 - length [2%Z])
               (filter (λ id, id ∉ [2%Z])
                  (removeInput [1%Z]
                     (getObjectsIds [Demo.cell00; Demo.cell01]
                        Demo.trackMatrix)))
  ∧ collected (getSimilarObjects (Demo.engine (Some Demo.network)) [1%Z]
                 Demo.trackMatrix Demo.trackPositions 2 1).2
    `prefix_of`
    collected (getSimilarObjects (Demo.engine (Some Demo.network)) [1%Z]
                 Demo.trackMatrix Demo.trackPositions 2 3).2
  ∧ (∃ calls res,
       returnsWith (getSimilarObjects (Demo.engine (Some Demo.network)) [1%Z]
                      Demo.trackMatrix Demo.trackPositions 2) calls res
       ∧ NoDup res)
  ∧ [2%Z; 3%Z]
    = take 2
        (removeInput [1%Z]
           (getObjectsIds
              (searchedPositions (Demo.engine (Some Demo.network))
                 (getMatchingRefVectorsPosition [1%Z] Demo.trackPositions)
                 [([Demo.cell00], 1.5%float)])
              Demo.trackMatrix))
  ∧ ([Demo.cell00], 1.5%float)
    = (searchedPositions (Demo.engine (Some Demo.network))
         (getMatchingRefVectorsPosition [1%Z] Demo.trackPositions)
         (take 0 [([Demo.cell00], 1.5%float)]),
       maxDistance (Demo.engine (Some Demo.network))).
Proof.
  destruct (getSimilarObjects_no_duplicates_in_discovery_order
              (Demo.engine (Some Demo.network)) [1%Z]
              Demo.trackMatrix Demo.trackPositions 2)
    as (_ & Hpass & Hgrows & Hreturns & Horder).
  destruct (Horder 10 _ [2%Z; 3%Z] eq_refl) as [Hfound Hcalls].
  split_and!.
  - apply Hpass. simpl. lia.
  - apply Hgrows. lia.
  - exact (Hreturns Demo.network Demo.cells eq_refl (demo_network_fresh _)).
  - exact Hfound.
  - exact (Hcalls 0 _ eq_refl).
Defined.

(** C4 on the demonstration snapshot: track 7 has no position. *)
Lemma getSimilarObjects_unresolved_seeds_witness :
  getMatchingRefVectorsPosition [7%Z] Demo.trackPositions = []
  ∧ getSimilarObjects (Demo.engine (Some Demo.network)) [7%Z]
      Demo.trackMatrix Demo.trackPositions 3 0
    = ([], Returned []).
Proof.
  apply (getSimilarObjects_unresolved_seeds
           (Demo.engine (Some Demo.network)) [7%Z]
           Demo.trackMatrix Demo.trackPositions 3 0).
  right. intros id ->%list_elem_of_singleton. reflexivity.
Defined.

(** C5 on an engine that was never loaded. *)
Lemma getSimilarObjects_no_snapshot_witness :
  (∀ trackIds : list TrackId,
     getSimilarObjects Demo.notLoaded trackIds (_trackMatrix Demo.notLoaded)
       (_trackPositions Demo.notLoaded) 5 3 = ([], Returned []))
  ∧ (∀ releaseIds : list ReleaseId,
       getSimilarObjects Demo.notLoaded releaseIds
         (_releaseMatrix Demo.notLoaded)
         (_releasePositions Demo.notLoaded) 5 3 = ([], Returned []))
  ∧ (∀ (artistIds : list ArtistId) (artistMatrix : ObjectMatrix ArtistId),
       getSimilarObjects Demo.notLoaded artistIds artistMatrix
         (_artistPositions Demo.notLoaded) 5 3 = ([], Returned [])).
Proof.
  exact (getSimilarObjects_no_snapshot Demo.notLoaded 5 3
           eq_refl eq_refl eq_refl eq_refl).
Defined.

(** C6 on the demonstration snapshot, with a network in which no cell is
    close to another. *)
Lemma getSimilarObjects_asks_one_closer_position_witness :
  searchLoop (Demo.engine (Some Demo.isolated)) [1%Z] Demo.trackMatrix 5 1
    [Demo.cell00] []
  = ([([Demo.cell00], 1.5%float)], Returned [2%Z])
  ∧ returnsWith (getSimilarObjects (Demo.engine (Some Demo.isolated)) [1%Z]
                   Demo.trackMatrix Demo.trackPositions 5)
      [([Demo.cell00], 1.5%float)] [2%Z].
Proof.
  destruct (getSimilarObjects_asks_one_closer_position
              (Demo.engine (Some Demo.isolated)) Demo.isolated
              Demo.trackMatrix eq_refl) as (Hpass & _ & Hscenario).
  split.
  - apply (Hpass [1%Z] 5 0 [Demo.cell00] []). vm_compute. lia.
  - apply (Hscenario Demo.trackPositions 1%Z 2%Z Demo.cell00).
    + lia.
    + reflexivity.
    + exact demo_cell00.
    + reflexivity.
Defined.

(** C7 on the demonstration snapshot. *)
Lemma getSimilarObjects_same_cell_first_witness :
  (∀ fuel,
     let reported :=
       collected (getSimilarObjects (Demo.engine (Some Demo.network)) [1%Z]
                    Demo.trackMatrix Demo.trackPositions 2 (S fuel)).2 in
     (∃ others, reported = 2%Z :: others)
     ∧ (1%Z ∉ reported) ∧ length reported ≤ 2)
  ∧ returnsWith (getSimilarObjects (Demo.engine (Some Demo.network)) [1%Z]
                   Demo.trackMatrix Demo.trackPositions 2)
      [([mkPosition 0 0], 1.5%float)] [2%Z; 3%Z].
Proof.
  destruct (getSimilarObjects_same_cell_first
              (Demo.engine (Some Demo.network)) Demo.network
              Demo.trackMatrix Demo.trackPositions 1%Z 2%Z 3%Z)
    as [Hfirst Hsecond].
  - lia.
  - lia.
  - lia.
  - reflexivity.
  - reflexivity.
  - exact demo_cell00.
  - exact demo_cell01.
  - split; [exact Hfirst|]. apply Hsecond. reflexivity.
Defined.

(** C9 on the demonstration snapshot, and on a network that repeats
    itself. *)
Lemma getSimilarObjects_terminates_witness :
  (∃ calls res,
     returnsWith (getSimilarObjects (Demo.engine (Some Demo.network)) [1%Z]
                    Demo.trackMatrix Demo.trackPositions 5) calls res
     ∧ length calls ≤ S (length Demo.cells))
  ∧ ∀ fuel, ∃ reported,
      (searchLoop (Demo.engine (Some Demo.repeating)) [1%Z] Demo.trackMatrix 5
         fuel [Demo.cell00] []).2
      = OutOfFuel [Demo.cell00] reported.
Proof.
  destruct (@getSimilarObjects_terminates Z _ _ unit _ _)
    as [Hreturns Hstuck].
  split.
  - apply (Hreturns (Demo.engine (Some Demo.network)) Demo.network Demo.cells
             [1%Z] Demo.trackMatrix Demo.trackPositions 5 eq_refl
             (demo_network_fresh _)).
  - apply (Hstuck (Demo.engine (Some Demo.repeating)) Demo.repeating [1%Z]
             Demo.trackMatrix 5 [Demo.cell00] [] Demo.cell00 eq_refl eq_refl).
    + by left.
    + vm_compute. lia.
Defined.

(** C8 on the demonstration snapshot, whose reference vectors have two
    components. *)
Lemma decode_encode_witness :
  CacheCodec.decode 1 (CacheCodec.encode 1 Demo.snapshot) 2
  = CacheCodec.Decoded Demo.snapshot.
Proof. apply (decode_encode 1 Demo.snapshot 2). repeat constructor. Defined.

(** * Runs of the search on the demonstration snapshot *)

(** Two tracks asked for from track 1: track 2 shares its cell, track 3 is
    found after one call to the network, with a bound of 0.75 * 2. *)
Example demo_two_tracks :
  getSimilarObjects (Demo.engine (Some Demo.network)) [1%Z]
    Demo.trackMatrix Demo.trackPositions 2 10
  = ([([Demo.cell00], 1.5%float)], Returned [2%Z; 3%Z]).
Proof. reflexivity. Qed.

(** Five tracks asked for: the whole grid is searched, cell after cell,
    and the three other tracks are all there is. *)
Example demo_whole_grid :
  getSimilarObjects (Demo.engine (Some Demo.network)) [1%Z]
    Demo.trackMatrix Demo.trackPositions 5 10
  = ([([Demo.cell00], 1.5%float);
      ([Demo.cell00; Demo.cell01], 1.5%float);
      ([Demo.cell00; Demo.cell01; Demo.cell10], 1.5%float);
      ([Demo.cell00; Demo.cell01; Demo.cell10; Demo.cell11], 1.5%float)],
     Returned [2%Z; 3%Z; 4%Z]).
Proof. reflexivity. Qed.

(** Seeds are dropped from what their own cells hold. *)
Example demo_two_seeds :
  getSimilarObjects (Demo.engine (Some Demo.network)) [3%Z; 1%Z]
    Demo.trackMatrix Demo.trackPositions 5 10
  = ([([Demo.cell01; Demo.cell00], 1.5%float);
      ([Demo.cell01; Demo.cell00; Demo.cell10], 1.5%float);
      ([Demo.cell01; Demo.cell00; Demo.cell10; Demo.cell11], 1.5%float)],
     Returned [2%Z; 4%Z]).
Proof. reflexivity. Qed.

(** Position indices without a network: line 206 goes through the empty
    pointer as soon as a pass ends below [maxCount]. *)
Example demo_null_network :
  getSimilarObjects (Demo.engine None) [1%Z]
    Demo.trackMatrix Demo.trackPositions 5 10
  = ([], NullNetwork [2%Z]).
Proof. reflexivity. Qed.

(** A network that answers with a searched cell keeps the loop running. *)
Example demo_repeating_network :
  (getSimilarObjects (Demo.engine (Some Demo.repeating)) [1%Z]
     Demo.trackMatrix Demo.trackPositions 5 10).2
  = OutOfFuel [Demo.cell00] [2%Z].
Proof. reflexivity. Qed.

(** * Further properties of the position and id collection *)

Section CollectionProperties.
Context {IdType : Type} `{Countable IdType}.
Implicit Types (ids closest : list IdType) (id : IdType).
Implicit Types (positions searched : list Position).
Implicit Types (objectMatrix : Matrix (list IdType)).
Implicit Types (objectPositions : gmap IdType (list Position)).

Lemma matching_fold_elem_of ids objectPositions (acc : list Position) p :
  p ∈ foldl (λ (res : list Position) id,
               match objectPositions !! id with
               | None => res
               | Some ps => foldl push_back_if_not_present res ps
               end) acc ids
  ↔ p ∈ acc ∨ ∃ id ps, id ∈ ids ∧ objectPositions !! id = Some ps ∧ p ∈ ps.
Proof.
  revert acc. induction ids as [|a ids IH]; intros acc; simpl.
  - split; [by left|]. intros [?|(id & ps & Hid & _)]; [done|].
    by apply elem_of_nil in Hid.
  - rewrite IH. split.
    + intros [Hacc|(id & ps & Hid & Hps & Hp)].
      * destruct (objectPositions !! a) as [ps|] eqn:Ha; [|by left].
        apply elem_of_foldl_push_back in Hacc as [?|?]; [by left|].
        right. exists a, ps. split_and!; [by left|done..].
      * right. exists id, ps. split_and!; [by right|done..].
    + intros [Hacc|(id & ps & Hid & Hps & Hp)].
      * left. destruct (objectPositions !! a); [|done].
        apply elem_of_foldl_push_back. by left.
      * apply elem_of_cons in Hid as [->|Hid].
        -- left. rewrite Hps. apply elem_of_foldl_push_back. by right.
        -- right. by exists id, ps.
Qed.

Lemma matching_fold_prefix ids objectPositions (acc : list Position) :
  acc `prefix_of`
  foldl (λ (res : list Position) id,
           match objectPositions !! id with
           | None => res
           | Some ps => foldl push_back_if_not_present res ps
           end) acc ids.
Proof.
  revert acc. induction ids as [|a ids IH]; intros acc; simpl; [done|].
  etrans; [|apply IH]. destruct (objectPositions !! a); [|done].
  apply prefix_foldl_push_back.
Qed.

(** X1. The positions resolved from the seeds are exactly the positions
    listed in the index for some seed, each of them once. *)
Theorem getMatchingRefVectorsPosition_exact ids objectPositions :
  NoDup (getMatchingRefVectorsPosition ids objectPositions)
  ∧ ∀ p, p ∈ getMatchingRefVectorsPosition ids objectPositions
         ↔ ∃ id ps, id ∈ ids ∧ objectPositions !! id = Some ps ∧ p ∈ ps.
Proof.
  split; [apply getMatchingRefVectorsPosition_NoDup|].
  intros p. rewrite getMatchingRefVectorsPosition_fold, matching_fold_elem_of.
  rewrite elem_of_nil. tauto.
Qed.

(** X2. A seed without entry in the index can be struck out of the seed
    list, wherever it stands, without changing the positions resolved. *)
Theorem getMatchingRefVectorsPosition_skips_unknown
    ids1 id ids2 objectPositions :
  objectPositions !! id = None →
  getMatchingRefVectorsPosition (ids1 ++ id :: ids2) objectPositions
  = getMatchingRefVectorsPosition (ids1 ++ ids2) objectPositions.
Proof.
  intros Hnone. rewrite !getMatchingRefVectorsPosition_fold, !foldl_app.
  simpl. by rewrite Hnone.
Qed.

(** X3. A seed given twice counts once: its second occurrence can be
    struck out without changing the positions resolved. *)
Theorem getMatchingRefVectorsPosition_repeated_seed
    ids1 id ids2 ids3 objectPositions :
  getMatchingRefVectorsPosition (ids1 ++ id :: ids2 ++ id :: ids3)
    objectPositions
  = getMatchingRefVectorsPosition (ids1 ++ id :: ids2 ++ ids3)
      objectPositions.
Proof.
  rewrite !getMatchingRefVectorsPosition_fold.
  rewrite !foldl_app. simpl. rewrite !foldl_app. simpl.
  destruct (objectPositions !! id) as [ps|] eqn:Hid; [|done].
  f_equal. apply foldl_push_back_present. intros p Hp.
  eapply elem_of_prefix; [|apply matching_fold_prefix].
  apply elem_of_foldl_push_back. by right.
Qed.

(** X4. The candidates collected from a list of positions are exactly the
    ids held by the cells at these positions, each of them once, and those
    of earlier positions come first: searching further positions only
    appends. *)
Theorem getObjectsIds_exact positions more objectMatrix :
  NoDup (getObjectsIds positions objectMatrix)
  ∧ (∀ id, id ∈ getObjectsIds positions objectMatrix
           ↔ ∃ p, p ∈ positions ∧ id ∈ get objectMatrix p)
  ∧ getObjectsIds positions objectMatrix
    `prefix_of` getObjectsIds (positions ++ more) objectMatrix.
Proof.
  split_and!.
  - apply getObjectsIds_NoDup.
  - intros id. apply getObjectsIds_elem_of.
  - unfold getObjectsIds. rewrite foldl_app. apply objects_fold_prefix.
Qed.

End CollectionProperties.

(** * Further properties of the search *)

Section SearchProperties.
Context {IdType : Type} `{Countable IdType}.
Context {TrackArtistLinkType : Type} `{Countable TrackArtistLinkType}.
Implicit Types (this : FeaturesEngine TrackArtistLinkType).
Implicit Types (ids res closest : list IdType) (id : IdType).
Implicit Types (searched : list Position).
Implicit Types (objectMatrix : Matrix (list IdType)).
Implicit Types (objectPositions : gmap IdType (list Position)).
Implicit Types (maxCount fuel : nat).

Lemma filter_not_in_nil closest :
  filter (λ id, id ∉ @nil IdType) closest = closest.
Proof.
  induction closest as [|a closest IH]; [done|].
  rewrite filter_cons_True by apply not_elem_of_nil. by rewrite IH.
Qed.

(** The first pass reports the first [maxCount] candidates. *)
Lemma report_nil maxCount closest :
  NoDup closest → report maxCount [] closest = take maxCount closest.
Proof.
  intros Hnd. rewrite report_app by (done || simpl; lia).
  simpl. by rewrite Nat.sub_0_r, filter_not_in_nil.
Qed.

(** Reporting up to a smaller count gives the first ids of reporting up to
    a larger one. *)
Lemma report_take maxCount maxCount' res closest :
  NoDup closest → length res ≤ maxCount → maxCount ≤ maxCount' →
  report maxCount res closest
  = take maxCount (report maxCount' res closest).
Proof.
  intros Hnd Hlen Hle. rewrite !report_app by (done || lia).
  rewrite take_app_ge by done. f_equal.
  rewrite take_take. f_equal. lia.
Qed.

Lemma pass_prefix_searchLoop this ids objectMatrix maxCount fuel searched res :
  report maxCount res (removeInput ids (getObjectsIds searched objectMatrix))
  `prefix_of`
  collected (searchLoop this ids objectMatrix maxCount (S fuel) searched res).2.
Proof.
  rewrite searchLoop_S. case_decide; [done|].
  destruct (_network this) as [network|]; [|done].
  destruct (getClosestRefVectorPosition _ _ _); [|done]. simpl.
  apply searchLoop_prefix.
Qed.

Lemma candidates_NoDup ids searched objectMatrix :
  NoDup (removeInput ids (getObjectsIds searched objectMatrix)).
Proof. apply removeInput_NoDup, getObjectsIds_NoDup. Qed.

(** X5. The ids held by the seeds' own cells come first: whatever the
    network answers, once a pass has run the first [maxCount] candidates of
    the resolved positions open the reported ids. *)
Theorem getSimilarObjects_seed_cells_first
    this ids objectMatrix objectPositions maxCount fuel :
  take maxCount
    (removeInput ids
       (getObjectsIds (getMatchingRefVectorsPosition ids objectPositions)
          objectMatrix))
  `prefix_of`
  collected (getSimilarObjects this ids objectMatrix objectPositions
               maxCount (S fuel)).2.
Proof.
  destruct (decide (getMatchingRefVectorsPosition ids objectPositions = []))
    as [Hempty|Hfound].
  - rewrite Hempty.
    change (removeInput ids (getObjectsIds [] objectMatrix))
      with (@nil IdType).
    rewrite take_nil. apply prefix_nil.
  - rewrite getSimilarObjects_resolved by done.
    rewrite <-report_nil by apply candidates_NoDup.
    apply pass_prefix_searchLoop.
Qed.

(** X6. When the seeds' own cells hold at least [maxCount] other ids, the
    result is the first [maxCount] of them and the network is not
    consulted: it need not even be loaded. *)
Theorem getSimilarObjects_filled_by_seed_cells
    this ids objectMatrix objectPositions maxCount fuel :
  maxCount
  ≤ length (removeInput ids
              (getObjectsIds
                 (getMatchingRefVectorsPosition ids objectPositions)
                 objectMatrix)) →
  getSimilarObjects this ids objectMatrix objectPositions maxCount (S fuel)
  = ([], Returned
           (take maxCount
              (removeInput ids
                 (getObjectsIds
                    (getMatchingRefVectorsPosition ids objectPositions)
                    objectMatrix)))).
Proof.
  intros Hlen.
  destruct (decide (getMatchingRefVectorsPosition ids objectPositions = []))
    as [Hempty|Hfound].
  - rewrite getSimilarObjects_unresolved by done. rewrite Hempty.
    change (removeInput ids (getObjectsIds [] objectMatrix))
      with (@nil IdType).
    by rewrite take_nil.
  - rewrite getSimilarObjects_resolved by done.
    rewrite searchLoop_S, report_nil by apply candidates_NoDup.
    rewrite decide_True; [done|]. rewrite length_take. lia.
Qed.

(** X7. Position indices without a network: as soon as a seed resolves
    and its cells hold fewer than [maxCount] other ids, the search reaches
    line 206 and goes through the empty [_network] pointer, having
    collected those ids. *)
Theorem getSimilarObjects_null_network
    this ids objectMatrix objectPositions maxCount fuel :
  _network this = None →
  getMatchingRefVectorsPosition ids objectPositions ≠ [] →
  length (removeInput ids
            (getObjectsIds
               (getMatchingRefVectorsPosition ids objectPositions)
               objectMatrix)) < maxCount →
  getSimilarObjects this ids objectMatrix objectPositions maxCount (S fuel)
  = ([], NullNetwork
           (removeInput ids
              (getObjectsIds
                 (getMatchingRefVectorsPosition ids objectPositions)
                 objectMatrix))).
Proof.
  intros Hnet Hfound Hlen.
  rewrite getSimilarObjects_resolved by done.
  rewrite searchLoop_S, report_nil by apply candidates_NoDup.
  rewrite take_ge by lia. rewrite decide_False by lia. by rewrite Hnet.
Qed.

(** Every id of an outcome was reported before, or is held by the cell of
    a position searched at the start or of a position the network answered
    one of the calls of the run with. *)
Lemma searchLoop_sound this ids objectMatrix maxCount fuel searched res id :
  id ∈ collected
         (searchLoop this ids objectMatrix maxCount fuel searched res).2 →
  id ∈ res
  ∨ ∃ p,
      id ∈ get objectMatrix p
      ∧ (p ∈ searched
         ∨ ∃ network (call : NetworkCall),
             _network this = Some network
             ∧ call ∈ (searchLoop this ids objectMatrix maxCount
                         fuel searched res).1
             ∧ getClosestRefVectorPosition network call.1 call.2 = Some p).
Proof.
  revert searched res. induction fuel as [|fuel IH]; intros searched res;
    [by left|].
  assert (∀ id',
            id' ∈ report maxCount res
                    (removeInput ids (getObjectsIds searched objectMatrix)) →
            id' ∈ res
            ∨ ∃ p, id' ∈ get objectMatrix p ∧ p ∈ searched) as Hpass.
  { intros id' Hid'.
    apply report_elem_of in Hid' as [Hid'|Hid']; [by left|]. right.
    apply removeInput_elem_of in Hid' as [_ Hid'].
    apply getObjectsIds_elem_of in Hid' as (p & Hp & Hid'). by exists p. }
  assert (id ∈ report maxCount res
                 (removeInput ids (getObjectsIds searched objectMatrix)) →
          id ∈ res
          ∨ ∃ p,
              id ∈ get objectMatrix p
              ∧ (p ∈ searched
                 ∨ ∃ network (call : NetworkCall),
                     _network this = Some network
                     ∧ call ∈ (searchLoop this ids objectMatrix maxCount
                                 (S fuel) searched res).1
                     ∧ getClosestRefVectorPosition network call.1 call.2
                       = Some p)) as Hdone.
  { intros Hid. destruct (Hpass id Hid) as [?|(p & ? & ?)]; [by left|].
    right. exists p. split; [done|by left]. }
  revert Hdone. rewrite searchLoop_S.
  case_decide; [intros Hdone; exact Hdone|].
  destruct (_network this) as [network|] eqn:Hnet;
    [|intros Hdone; exact Hdone].
  destruct (getClosestRefVectorPosition network searched (maxDistance this))
    as [q|] eqn:Hq; [|intros Hdone; exact Hdone].
  intros _. cbn [fst snd]. intros Hid.
  destruct (IH _ _ Hid) as [Hid'|(p & Hcell & Hp)].
  - destruct (Hpass id Hid') as [?|(p & ? & ?)]; [by left|].
    right. exists p. split; [done|by left].
  - right. exists p. split; [done|].
    destruct Hp as [Hp|(network' & call & Hnet' & Hcall & Hanswer)].
    + apply elem_of_push_back in Hp as [Hp| ->]; [by left|].
      right. exists network, (searched, maxDistance this).
      split_and!; [done|left|done].
    + right. exists network', call. split_and!; [done|by right|done].
Qed.

(** X8. Nothing is made up: every id reported is held by the cell of a
    position resolved from the seeds, or of a position that the network
    returned to one of the calls of [getClosestRefVectorPosition] made
    during this search. *)
Theorem getSimilarObjects_sound
    this ids objectMatrix objectPositions maxCount fuel id :
  id ∈ collected (getSimilarObjects this ids objectMatrix objectPositions
                    maxCount fuel).2 →
  ∃ p,
    id ∈ get objectMatrix p
    ∧ (p ∈ getMatchingRefVectorsPosition ids objectPositions
       ∨ ∃ network (call : NetworkCall),
           _network this = Some network
           ∧ call ∈ (getSimilarObjects this ids objectMatrix objectPositions
                       maxCount fuel).1
           ∧ getClosestRefVectorPosition network call.1 call.2 = Some p).
Proof.
  destruct (decide (getMatchingRefVectorsPosition ids objectPositions = []))
    as [Hempty|Hfound].
  { rewrite getSimilarObjects_unresolved by done. simpl.
    intros Hin. by apply elem_of_nil in Hin. }
  rewrite getSimilarObjects_resolved by done. intros Hin.
  apply searchLoop_sound in Hin as [Hin|Hin]; [|done].
  by apply elem_of_nil in Hin.
Qed.

Lemma searchLoop_maxCount_mono this ids objectMatrix maxCount maxCount' :
  maxCount ≤ maxCount' →
  ∀ fuel searched res calls calls' found found',
    length res ≤ maxCount →
    searchLoop this ids objectMatrix maxCount fuel searched res
    = (calls, Returned found) →
    searchLoop this ids objectMatrix maxCount' fuel searched res
    = (calls', Returned found') →
    found = take maxCount found'.
Proof.
  intros Hle. induction fuel as [|fuel IH];
    intros searched res calls calls' found found' Hlen Hrun Hrun'; [done|].
  pose proof (pass_prefix_searchLoop this ids objectMatrix maxCount' fuel
                searched res) as Hprefix.
  rewrite Hrun' in Hprefix. simpl in Hprefix.
  rewrite searchLoop_S in Hrun, Hrun'.
  pose proof (report_take maxCount maxCount' res
                (removeInput ids (getObjectsIds searched objectMatrix))
                (candidates_NoDup _ _ _) Hlen Hle) as Htake.
  pose proof (report_length maxCount res
                (removeInput ids (getObjectsIds searched objectMatrix)) Hlen)
    as Hbound.
  set (r := report maxCount res _) in *.
  set (r' := report maxCount' res _) in *.
  destruct (decide (length r = maxCount)) as [Hfull|Hless].
  - injection Hrun as _ <-. rewrite Htake.
    destruct Hprefix as [rest ->]. rewrite take_app_le; [done|].
    rewrite Htake, length_take in Hfull. lia.
  - assert (r' = r) as Hsame.
    { rewrite Htake. rewrite take_ge; [done|].
      rewrite Htake, length_take in Hless, Hbound. lia. }
    rewrite Hsame in Hrun'.
    rewrite decide_False in Hrun' by lia.
    destruct (_network this) as [network|]; [|done].
    destruct (getClosestRefVectorPosition _ _ _) as [p|].
    + destruct (searchLoop this ids objectMatrix maxCount fuel _ r)
        as [c o] eqn:Hrec.
      destruct (searchLoop this ids objectMatrix maxCount' fuel _ r)
        as [c' o'] eqn:Hrec'.
      simpl in Hrun, Hrun'. injection Hrun as _ ->. injection Hrun' as _ ->.
      by eapply IH.
    + injection Hrun as _ <-. injection Hrun' as _ <-.
      rewrite take_ge; [done|lia].
Qed.

(** X9. Asking for more only appends: the result for a smaller [maxCount]
    is made of the first ids of the result for a larger one. *)
Theorem getSimilarObjects_maxCount_mono
    this ids objectMatrix objectPositions maxCount maxCount'
    calls calls' found found' :
  maxCount ≤ maxCount' →
  returnsWith (getSimilarObjects this ids objectMatrix objectPositions
                 maxCount) calls found →
  returnsWith (getSimilarObjects this ids objectMatrix objectPositions
                 maxCount') calls' found' →
  found = take maxCount found'.
Proof.
  intros Hle [fuel0 Hrun] [fuel0' Hrun'].
  specialize (Hrun (fuel0 `max` fuel0') ltac:(lia)).
  specialize (Hrun' (fuel0 `max` fuel0') ltac:(lia)).
  destruct (decide (getMatchingRefVectorsPosition ids objectPositions = []))
    as [Hempty|Hfound].
  - rewrite getSimilarObjects_unresolved in Hrun, Hrun' by done.
    injection Hrun as _ <-. injection Hrun' as _ <-. by rewrite take_nil.
  - rewrite getSimilarObjects_resolved in Hrun, Hrun' by done.
    eapply (searchLoop_maxCount_mono this ids objectMatrix maxCount maxCount');
      [done| |done..].
    simpl. lia.
Qed.

Lemma searchLoop_complete this ids objectMatrix maxCount :
  ∀ fuel searched res calls found,
    searchLoop this ids objectMatrix maxCount fuel searched res
    = (calls, Returned found) →
    length found ≠ maxCount →
    calls ≠ []
    ∧ ∀ call p id,
        call ∈ calls → p ∈ call.1 → id ∈ get objectMatrix p → id ∉ ids →
        id ∈ found.
Proof.
  induction fuel as [|fuel IH]; intros searched res calls found Hrun Hlen;
    [done|].
  pose proof (pass_prefix_searchLoop this ids objectMatrix maxCount fuel
                searched res) as Hprefix.
  rewrite Hrun in Hprefix. simpl in Hprefix.
  rewrite searchLoop_S in Hrun.
  set (r := report maxCount res _) in *.
  assert (length r ≠ maxCount →
          ∀ p id, p ∈ searched → id ∈ get objectMatrix p → id ∉ ids →
                  id ∈ found) as Hhere.
  { intros Hless p id Hp Hid Hseed. eapply elem_of_prefix; [|exact Hprefix].
    apply report_incomplete; [done|].
    apply removeInput_elem_of. split; [done|].
    apply getObjectsIds_elem_of. by exists p. }
  destruct (decide (length r = maxCount)) as [Hfull|Hless].
  { injection Hrun as _ <-. done. }
  destruct (_network this) as [network|]; [|done].
  destruct (getClosestRefVectorPosition _ _ _) as [q|].
  - destruct (searchLoop this ids objectMatrix maxCount fuel _ r)
      as [c o] eqn:Hrec.
    simpl in Hrun. injection Hrun as <- ->.
    destruct (IH _ _ _ _ Hrec Hlen) as [_ Hrest].
    split; [done|]. intros call p id Hcall Hp Hid Hseed.
    apply elem_of_cons in Hcall as [->|Hcall]; [by eapply Hhere|].
    by eapply Hrest.
  - injection Hrun as <- <-. split; [done|].
    intros call p id Hcall Hp Hid Hseed.
    apply list_elem_of_singleton in Hcall as ->. by eapply Hhere.
Qed.

(** X10. Nothing within reach is left out: a result of fewer than
    [maxCount] ids holds every id, other than the seeds, of the cells of
    every position resolved from the seeds and of every position the
    network was asked about. *)
Theorem getSimilarObjects_complete
    this ids objectMatrix objectPositions maxCount fuel calls found p id :
  getSimilarObjects this ids objectMatrix objectPositions maxCount fuel
  = (calls, Returned found) →
  length found < maxCount →
  p ∈ getMatchingRefVectorsPosition ids objectPositions
  ∨ (∃ call, call ∈ calls ∧ p ∈ call.1) →
  id ∈ get objectMatrix p →
  id ∉ ids →
  id ∈ found.
Proof.
  intros Hrun Hlen Hp Hid Hseed.
  destruct (decide (getMatchingRefVectorsPosition ids objectPositions = []))
    as [Hempty|Hfound].
  { rewrite getSimilarObjects_unresolved in Hrun by done.
    injection Hrun as <- <-. rewrite Hempty in Hp.
    destruct Hp as [Hp|(call & Hcall & _)]; by apply elem_of_nil in Hp || 
      by apply elem_of_nil in Hcall. }
  rewrite getSimilarObjects_resolved in Hrun by done.
  destruct (searchLoop_complete _ _ _ _ _ _ _ _ _ Hrun ltac:(lia))
    as [Hcalls Hall].
  destruct Hp as [Hp|(call & Hcall & Hp)]; [|by eapply Hall].
  destruct fuel as [|fuel]; [done|]. rewrite searchLoop_S in Hrun.
  case_decide; [injection Hrun as <- _; done|].
  destruct (_network this) as [network|]; [|done].
  eapply (Hall (getMatchingRefVectorsPosition ids objectPositions,
                maxDistance this)); [|done..].
  destruct (getClosestRefVectorPosition _ _ _).
  - destruct (searchLoop _ _ _ _ _ _ _). injection Hrun as <- _. by left.
  - injection Hrun as <- _. by left.
Qed.

End SearchProperties.

(** * Properties of the release queries *)

Section ReleaseProperties.
Context {A : Type}.
Implicit Types (rows l : list A).

Lemma removelast_take l n :
  S n ≤ length l → removelast (take (S n) l) = take n l.
Proof.
  revert l. induction n as [|n IH]; intros l Hlen.
  - destruct l as [|a l]; simpl in *; [lia|]. by destruct l.
  - destruct l as [|a l]; simpl in *; [lia|].
    rewrite <-(IH l) by lia. destruct l as [|b l]; simpl in *; [lia|done].
Qed.

(** A page of [size] rows. *)
Lemma getByFilter_sized rows (offset size : Z) :
  (0 ≤ offset)%Z →
  (0 ≤ size < 2 ^ 31 - 1)%Z →
  Release.getByFilter rows offset size
  = (take (Z.to_nat size) (drop (Z.to_nat offset) rows),
     bool_decide (Z.to_nat offset + Z.to_nat size < length rows)).
Proof.
  intros Hoffset Hsize.
  unfold Release.getByFilter, Release.limit, Release.offset,
    Release.to_size_t.
  rewrite (decide_True (P := (size ≠ -1)%Z)) by lia.
  rewrite (decide_False (P := (size + 1 < 0)%Z)) by lia.
  rewrite (decide_False (P := (offset = -1)%Z)) by lia.
  rewrite (Z.mod_small size) by lia.
  rewrite (Z.mod_small (size + 1)) by lia.
  replace (Z.to_nat (size + 1)) with (S (Z.to_nat size)) by lia.
  set (n := Z.to_nat size). set (rest := drop (Z.to_nat offset) rows).
  assert (length rest = length rows - Z.to_nat offset) as Hrest
    by apply length_drop.
  rewrite length_take.
  destruct (decide (S n ≤ length rest)) as [Hmore|Hlast].
  - rewrite decide_True by lia. rewrite removelast_take by done.
    f_equal. symmetry. apply bool_decide_eq_true. lia.
  - rewrite decide_False by lia.
    rewrite !take_ge by lia.
    f_equal. symmetry. apply bool_decide_eq_false. lia.
Qed.

(** All the rows left. *)
Lemma getByFilter_all rows (offset : Z) :
  (0 ≤ offset)%Z →
  Release.getByFilter rows offset (-1) = (drop (Z.to_nat offset) rows, false).
Proof.
  intros Hoffset.
  unfold Release.getByFilter, Release.limit, Release.offset.
  rewrite (decide_False (P := (-1 ≠ -1)%Z)) by lia.
  rewrite (decide_True (P := (-1 < 0)%Z)) by lia.
  rewrite (decide_False (P := (offset = -1)%Z)) by lia.
  rewrite decide_False by lia. done.
Qed.

(** X11. [getByFilter] pages through the rows of the query.  Asked for
    [size] rows from [offset] on, it returns these rows, or the fewer that
    are left, and sets [moreResults] exactly when rows remain after them;
    to that end it fetches one row more than asked for and drops it.  With
    [size = -1] it returns all rows from [offset] on and [moreResults] is
    false. *)
Theorem getByFilter_page rows (offset size : Z) :
  (0 ≤ offset)%Z →
  (0 ≤ size < 2 ^ 31 - 1)%Z →
  Release.getByFilter rows offset size
  = (take (Z.to_nat size) (drop (Z.to_nat offset) rows),
     bool_decide (Z.to_nat offset + Z.to_nat size < length rows))
  ∧ Release.getByFilter rows offset (-1)
    = (drop (Z.to_nat offset) rows, false).
Proof.
  intros Hoffset Hsize. split.
  - by apply getByFilter_sized.
  - by apply getByFilter_all.
Qed.

(** X12. Pages follow one another without gap or overlap: the page at
    [offset] followed by all rows from [offset + size] on gives all rows
    from [offset] on, and a page reports more results exactly when the next
    page is not empty. *)
Theorem getByFilter_next_page rows (offset size : Z) :
  (0 ≤ offset)%Z →
  (0 < size)%Z →
  (offset + size < 2 ^ 31 - 1)%Z →
  (Release.getByFilter rows offset size).1
  ++ (Release.getByFilter rows (offset + size) (-1)).1
  = (Release.getByFilter rows offset (-1)).1
  ∧ ((Release.getByFilter rows offset size).2 = true
     ↔ (Release.getByFilter rows (offset + size) size).1 ≠ []).
Proof.
  intros Hoffset Hsize Hsum.
  rewrite (getByFilter_sized rows offset size) by lia.
  rewrite (getByFilter_all rows offset) by lia.
  rewrite (getByFilter_sized rows (offset + size) size) by lia.
  rewrite (getByFilter_all rows (offset + size)) by lia.
  simpl. split.
  - replace (Z.to_nat (offset + size))
      with (Z.to_nat offset + Z.to_nat size) by lia.
    rewrite <-drop_drop. apply take_drop.
  - rewrite bool_decide_eq_true.
    replace (Z.to_nat (offset + size))
      with (Z.to_nat offset + Z.to_nat size) by lia.
    set (o := Z.to_nat offset + Z.to_nat size).
    assert (length (take (Z.to_nat size) (drop o rows))
            = Z.to_nat size `min` (length rows - o)) as Hlen
      by (by rewrite length_take, length_drop).
    split.
    + intros Hlt Hnil. rewrite Hnil in Hlen. simpl in Hlen. lia.
    + intros Hne. destruct (decide (o < length rows)) as [|Hge]; [done|].
      exfalso. apply Hne. apply nil_length_inv. lia.
Qed.

End ReleaseProperties.

Section ClusterGroupProperties.
Context {Cluster : Type}.
Variable typeId : Cluster → Z.
Implicit Types (keys : list Z) (key k : Z).
Implicit Types (queryRes seen : list Cluster) (size : nat).

(** The clusters of type [k] among [seen], cut at [size]. *)
Local Abbreviation group size seen k :=
  (take size (filter (λ c, typeId c = k) seen)).

(** The map that holds the vector [g k] at every key [k] of [keys]. *)
Local Abbreviation entries g keys :=
  (map (λ k, (k, g k)) keys : list (Z * list Cluster)).

(** Insertion of one key into increasing keys. *)
Fixpoint insertKey key keys : list Z :=
  match keys with
  | [] => [key]
  | k :: rest =>
    if decide (key < k)%Z then key :: keys
    else if decide (key = k) then keys
    else k :: insertKey key rest
  end.

Definition increasing keys : Prop := StronglySorted Z.lt keys.

Lemma increasing_cons k keys :
  increasing (k :: keys) ↔ increasing keys ∧ ∀ k', k' ∈ keys → (k < k')%Z.
Proof.
  unfold increasing. split.
  - intros Hs. apply StronglySorted_inv in Hs as [Hs Hall].
    split; [done|]. by apply Forall_forall.
  - intros [Hs Hall]. apply SSorted_cons; [done|]. by apply Forall_forall.
Qed.

Lemma elem_of_insertKey key keys k :
  k ∈ insertKey key keys ↔ k = key ∨ k ∈ keys.
Proof.
  induction keys as [|k0 keys IH]; simpl.
  - rewrite list_elem_of_singleton, elem_of_nil. tauto.
  - repeat case_decide; rewrite ?elem_of_cons, ?IH; subst;
      rewrite ?elem_of_cons; tauto.
Qed.

Lemma increasing_insertKey key keys :
  increasing keys → increasing (insertKey key keys).
Proof.
  induction keys as [|k0 keys IH]; intros Hs; simpl.
  - apply SSorted_cons; [apply SSorted_nil|apply Forall_nil_2].
  - apply increasing_cons in Hs as [Hs Hall].
    repeat case_decide.
    + apply increasing_cons. split; [by apply increasing_cons|].
      intros k' Hk'. apply elem_of_cons in Hk' as [->|Hk']; [done|].
      specialize (Hall k' Hk'). lia.
    + by apply increasing_cons.
    + apply increasing_cons. split; [by apply IH|].
      intros k' Hk'. apply elem_of_insertKey in Hk' as [->|Hk']; [lia|].
      by apply Hall.
Qed.

Lemma subscript_entries g key keys :
  increasing keys →
  (key ∉ keys → g key = []) →
  Release.subscript key (entries g keys) = entries g (insertKey key keys).
Proof.
  induction keys as [|k0 keys IH]; intros Hs Hnew; simpl.
  - rewrite Hnew; [done|apply not_elem_of_nil].
  - apply increasing_cons in Hs as [Hs Hall]. repeat case_decide; [|done|].
    + simpl. rewrite Hnew; [done|].
      intros Hin. apply elem_of_cons in Hin as [->|Hin]; [lia|].
      specialize (Hall _ Hin). lia.
    + simpl. rewrite IH; [done..|].
      intros Hin. apply Hnew. intros Hin'.
      apply elem_of_cons in Hin' as [->|Hin']; done.
Qed.

Lemma at_entries g key keys :
  key ∈ keys → Release.at_ key (entries g keys) = g key.
Proof.
  induction keys as [|k0 keys IH]; intros Hin; simpl.
  - by apply elem_of_nil in Hin.
  - case_decide; [by subst|].
    apply IH. apply elem_of_cons in Hin as [->|Hin]; done.
Qed.

Lemma push_back_entries g key cluster keys :
  increasing keys →
  Release.push_back key cluster (entries g keys)
  = entries (λ k, if decide (k = key) then g k ++ [cluster] else g k) keys.
Proof.
  induction keys as [|k0 keys IH]; intros Hs; simpl; [done|].
  apply increasing_cons in Hs as [Hs Hall].
  destruct (decide (key = k0)) as [->|Hne].
  - rewrite decide_True by done. f_equal.
    apply map_ext_in. intros k Hk. apply list_elem_of_In in Hk.
    specialize (Hall _ Hk). rewrite decide_False by lia. done.
  - rewrite (decide_False (P := k0 = key)) by done. f_equal. by apply IH.
Qed.

Lemma group_app_other size seen cluster k :
  typeId cluster ≠ k → group size (seen ++ [cluster]) k = group size seen k.
Proof.
  intros Hne. rewrite filter_app. rewrite filter_cons_False by done.
  by rewrite filter_nil, app_nil_r.
Qed.

Lemma group_app_same size seen cluster :
  group size (seen ++ [cluster]) (typeId cluster)
  = if decide (length (group size seen (typeId cluster)) < size)
    then group size seen (typeId cluster) ++ [cluster]
    else group size seen (typeId cluster).
Proof.
  rewrite filter_app. rewrite filter_cons_True by done. rewrite filter_nil.
  set (same := filter (λ c, typeId c = typeId cluster) seen).
  rewrite length_take. case_decide.
  - rewrite !take_ge; [done|lia|rewrite length_app; simpl; lia].
  - rewrite take_app_le by lia. done.
Qed.

Lemma group_unseen size seen k :
  (∀ c, c ∈ seen → typeId c ≠ k) → group size seen k = [].
Proof.
  intros Hnone. replace (filter (λ c, typeId c = k) seen) with (@nil Cluster);
    [by rewrite take_nil|].
  symmetry. induction seen as [|c seen IH]; [done|].
  rewrite filter_cons_False by (apply Hnone; by left).
  apply IH. intros c' Hc'. apply Hnone. by right.
Qed.

(** After any number of rows, the map holds one entry per type seen, in
    increasing order of the type ids, with the clusters of that type in the
    order of the rows, cut at [size]. *)
Lemma addCluster_entries size seen :
  ∃ keys,
    increasing keys
    ∧ (∀ k, k ∈ keys ↔ ∃ c, c ∈ seen ∧ typeId c = k)
    ∧ foldl (Release.addCluster typeId size) [] seen
      = entries (λ k, group size seen k) keys.
Proof.
  induction seen as [|cluster seen IH] using rev_ind.
  - exists []. split_and!; [apply SSorted_nil| |done].
    intros k. rewrite elem_of_nil. split; [done|].
    intros (c & Hc & _). by apply elem_of_nil in Hc.
  - destruct IH as (keys & Hs & Hkeys & Hmap).
    exists (insertKey (typeId cluster) keys). split_and!.
    + by apply increasing_insertKey.
    + intros k. rewrite elem_of_insertKey, Hkeys. split.
      * intros [->|(c & Hc & Hk)].
        -- exists cluster. split; [|done]. apply elem_of_app. right. by left.
        -- exists c. split; [|done]. apply elem_of_app. by left.
      * intros (c & Hc & Hk). apply elem_of_app in Hc as [Hc|Hc].
        -- right. by exists c.
        -- apply list_elem_of_singleton in Hc as ->. by left.
    + rewrite foldl_app. simpl. rewrite Hmap. unfold Release.addCluster.
      assert (Release.subscript (typeId cluster) (entries (λ k, group size seen k) keys)
              = entries (λ k, group size seen k) (insertKey (typeId cluster) keys))
        as Hsub.
      { apply subscript_entries; [done|]. intros Hnew. apply group_unseen.
        intros c Hc Hk. apply Hnew, Hkeys. by exists c. }
      rewrite Hsub.
      assert (Release.subscript (typeId cluster)
                (entries (λ k, group size seen k) (insertKey (typeId cluster) keys))
              = entries (λ k, group size seen k) (insertKey (typeId cluster) keys))
        as Hagain.
      { rewrite subscript_entries; [|by apply increasing_insertKey|].
        - f_equal. clear. induction keys as [|k0 keys IH]; simpl.
          + rewrite decide_False by lia. by rewrite decide_True.
          + repeat case_decide; simpl; repeat case_decide; try lia; try done.
            by rewrite IH.
        - intros Hnew. exfalso. apply Hnew, elem_of_insertKey. by left. }
      rewrite Hagain.
      rewrite at_entries by (apply elem_of_insertKey; by left).
      case_decide as Hroom.
      * rewrite push_back_entries by (by apply increasing_insertKey).
        apply map_ext_in. intros k Hk. f_equal. case_decide as Hsame.
        -- subst k. rewrite group_app_same. by rewrite decide_True.
        -- by rewrite group_app_other.
      * apply map_ext_in. intros k Hk. f_equal.
        destruct (decide (k = typeId cluster)) as [->|Hother].
        -- rewrite group_app_same. by rewrite decide_False.
        -- by rewrite group_app_other.
Qed.

(** X13. The groups returned are those of the cluster types met in the
    rows, in increasing order of the type ids; each holds the clusters of
    its type in the order of the rows, the first [size] of them at most. *)
Theorem getClusterGroups_groups queryRes size :
  ∃ keys,
    StronglySorted Z.lt keys
    ∧ (∀ k, k ∈ keys ↔ ∃ c, c ∈ queryRes ∧ typeId c = k)
    ∧ Release.getClusterGroups typeId queryRes size
      = map (λ k, take size (filter (λ c, typeId c = k) queryRes)) keys.
Proof.
  destruct (addCluster_entries size queryRes) as (keys & Hs & Hkeys & Hmap).
  exists keys. split_and!; [done..|].
  unfold Release.getClusterGroups. rewrite Hmap, map_map. done.
Qed.


End ClusterGroupProperties.

(** * Properties of the media request handler *)

Section MediaRequestHandlerProperties.
Import MediaRequestHandler.
Context {TranscoderState : Type}.
Variable isComplete : @Transcoder TranscoderState → bool.
Variable transcoderProcess :
  @Transcoder TranscoderState → @Transcoder TranscoderState.
Variable _maxPartSize : nat.
Variable getTrackPath : Z → option string.
Variable makeTranscoder : string → N → @Transcoder TranscoderState + string.

Local Abbreviation processAudioPrepare :=
  (MediaRequestHandler.processAudioPrepare getTrackPath makeTranscoder).
Local Abbreviation fill :=
  (MediaRequestHandler.fill isComplete transcoderProcess).
Local Abbreviation processGetPart :=
  (MediaRequestHandler.processGetPart isComplete transcoderProcess
     _maxPartSize).
Local Abbreviation process :=
  (MediaRequestHandler.process isComplete transcoderProcess _maxPartSize
     getTrackPath makeTranscoder).

Implicit Types (this : @Handler TranscoderState).
Implicit Types (transcoder : @Transcoder TranscoderState).
Implicit Types (response : MediaResponse) (fuel : nat).

(** What [fill] returns is the transcoder after some calls of
    [process()], complete or holding enough bytes. *)
Lemma fill_Some fuel dataSize transcoder filled :
  fill fuel dataSize transcoder = Some filled →
  (∃ n, n ≤ fuel ∧ filled = Nat.iter n transcoderProcess transcoder)
  ∧ (isComplete filled = true ∨ dataSize ≤ length (getOutputData filled)).
Proof.
  revert transcoder. induction fuel as [|fuel IH]; intros transcoder; simpl.
  - destruct (negb _ && _) eqn:Hgo; [done|]. intros [= <-].
    split; [by exists 0|].
    apply andb_false_iff in Hgo as [Hc|Hlen].
    + left. by apply negb_false_iff.
    + right. apply bool_decide_eq_false in Hlen. lia.
  - destruct (negb _ && _) eqn:Hgo.
    + intros Hfill. apply IH in Hfill as [(n & Hn & ->) Hdone].
      split; [|done]. exists (S n). split; [lia|].
      by rewrite Nat.iter_succ_r.
    + intros [= <-]. split; [by exists 0; split; [lia|]|].
      apply andb_false_iff in Hgo as [Hc|Hlen].
      * left. by apply negb_false_iff.
      * right. apply bool_decide_eq_false in Hlen. lia.
Qed.

(** [fill] returns as soon as the fuel covers the calls of [process()]
    after which the transcoder is complete. *)
Lemma fill_complete n fuel dataSize transcoder :
  isComplete (Nat.iter n transcoderProcess transcoder) = true →
  n ≤ fuel →
  is_Some (fill fuel dataSize transcoder).
Proof.
  revert fuel transcoder. induction n as [|n IH]; intros fuel transcoder Hc Hle.
  - simpl in Hc. destruct fuel; simpl; rewrite Hc; simpl; by eexists.
  - destruct fuel as [|fuel]; [lia|]. simpl.
    destruct (negb _ && _); [|by eexists].
    apply IH; [|lia]. by rewrite <-Nat.iter_succ_r.
Qed.

(** X15. A request that is refused ([process] returns false: a message
    without the part its type announces, a video, an unknown type or an
    unknown codec) leaves the response and the handler as they were. *)
Theorem process_refused_untouched fuel request response this response' this' :
  process fuel request response this = Some (false, response', this') →
  response' = response ∧ this' = this.
Proof.
  unfold MediaRequestHandler.process. intros Hrun.
  destruct (type request).
  - destruct (prepare request) as [p|]; [|by simplify_eq].
    destruct (audio p) as [a|]; [|by simplify_eq].
    unfold MediaRequestHandler.processAudioPrepare in Hrun.
    destruct (codec_type a) as [[]|], (_transcoder this),
      (getTrackPath (track_id a)) as [path|];
      try destruct (makeTranscoder path _); by simplify_eq.
  - destruct (get_part request) as [g|]; [|by simplify_eq].
    unfold MediaRequestHandler.processGetPart in Hrun.
    destruct (_transcoder this) as [t|]; [|by simplify_eq].
    destruct (MediaRequestHandler.fill _ _ _ _ t); by simplify_eq.
  - destruct (terminate request); by simplify_eq.
  - by simplify_eq.
Qed.

(** X16. One transcode at a time: while the handler holds a transcoder, a
    request to prepare another leaves that transcoder in place, untouched;
    unless the codec is unknown, the answer is the error "Transcode already
    in progress". *)
Theorem processAudioPrepare_in_progress request response this transcoder :
  _transcoder this = Some transcoder →
  (processAudioPrepare request response this).2 = this
  ∧ (codec_type request ≠ Some CodecTypeOther →
     processAudioPrepare request response this
     = (true, setError response true "Transcode already in progress", this)).
Proof.
  intros Hbusy. unfold MediaRequestHandler.processAudioPrepare. rewrite Hbusy.
  destruct (codec_type request) as [[]|]; done.
Qed.

(** X17. A part never exceeds what was asked for nor [_maxPartSize]; the
    bytes sent are the first bytes of the transcoder's output, in order,
    and exactly these are erased from it, so that none is lost or sent
    twice; a part shorter than both bounds is sent only when the transcode
    is complete.  The call returns as soon as the transcoder completes. *)
Theorem processGetPart_part request response this transcoder :
  _transcoder this = Some transcoder →
  (∀ fuel ok response' this',
     processGetPart fuel request response this = Some (ok, response', this') →
     ∃ n sent rest,
       ok = true
       ∧ response' = appendPart response sent
       ∧ this'
         = mkHandler
             (Some (mkTranscoder
                      (state (Nat.iter n transcoderProcess transcoder)) rest))
       ∧ sent ++ rest
         = getOutputData (Nat.iter n transcoderProcess transcoder)
       ∧ length sent ≤ requested_data_size request
       ∧ length sent ≤ _maxPartSize
       ∧ (length sent < requested_data_size request `min` _maxPartSize →
          isComplete (Nat.iter n transcoderProcess transcoder) = true))
  ∧ (∀ fuel n,
       isComplete (Nat.iter n transcoderProcess transcoder) = true →
       n ≤ fuel →
       is_Some (processGetPart fuel request response this)).
Proof.
  intros Hbusy. split.
  - intros fuel ok response' this'.
    unfold MediaRequestHandler.processGetPart. rewrite Hbusy.
    set (dataSize := if decide (_maxPartSize < requested_data_size request)
                     then _maxPartSize else requested_data_size request).
    assert (dataSize = requested_data_size request `min` _maxPartSize)
      as HdataSize by (unfold dataSize; case_decide; lia).
    destruct (MediaRequestHandler.fill _ _ _ _ transcoder) as [filled|]
      eqn:Hfill; [|done].
    simpl. intros [= <- <- <-].
    apply fill_Some in Hfill as [(n & _ & ->) Hdone].
    set (filled := Nat.iter n transcoderProcess transcoder) in *.
    exists n.
    destruct (decide (dataSize < length (getOutputData filled)))
      as [Hlong|Hshort].
    + exists (take dataSize (getOutputData filled)),
             (drop dataSize (getOutputData filled)).
      rewrite length_take.
      replace (dataSize `min` length (getOutputData filled)) with dataSize
        by lia.
      split_and!; [done..|apply take_drop|lia|lia|lia].
    + exists (getOutputData filled), [].
      rewrite drop_all. split_and!; [done..|apply app_nil_r|lia|lia|].
      intros Hless. destruct Hdone as [?|?]; [done|lia].
  - intros fuel n Hcomplete Hfuel.
    unfold MediaRequestHandler.processGetPart. rewrite Hbusy.
    destruct (fill_complete n fuel
                (if decide (_maxPartSize < requested_data_size request)
                 then _maxPartSize else requested_data_size request)
                transcoder Hcomplete Hfuel) as [filled ->].
    simpl. by eexists.
Qed.

(** X18. A terminate request always succeeds and drops the transcoder,
    whatever state the handler is in.  After it a request for a part is
    answered by the error "No transcoder set!" and changes nothing, and a
    transcode can be prepared again: with a known codec, an existing track
    and a transcoder that can be built, the handler holds the new
    transcoder. *)
Theorem process_terminate_resets
    fuel request response this terminate_ :
  type request = TypeMediaTerminate →
  terminate request = Some terminate_ →
  process fuel request response this
  = Some (true, setError response false "", mkHandler None)
  ∧ (∀ fuel' request' response' get_part_,
       type request' = TypeMediaGetPart →
       get_part request' = Some get_part_ →
       process fuel' request' response' (mkHandler None)
       = Some (true, setError response' true "No transcoder set!",
               mkHandler None))
  ∧ (∀ fuel' request' response' prepare_ audio_ path transcoder,
       type request' = TypeMediaPrepare →
       prepare request' = Some prepare_ →
       audio prepare_ = Some audio_ →
       codec_type audio_ ≠ Some CodecTypeOther →
       getTrackPath (track_id audio_) = Some path →
       makeTranscoder path (default 128000%N (bitrate audio_))
       = inl transcoder →
       process fuel' request' response' (mkHandler None)
       = Some (true, setError response' false "",
               mkHandler (Some transcoder))).
Proof.
  intros Htype Hterminate. unfold MediaRequestHandler.process. split_and!.
  - by rewrite Htype, Hterminate.
  - intros fuel' request' response' get_part_ Htype' Hpart.
    by rewrite Htype', Hpart.
  - intros fuel' request' response' prepare_ audio_ path transcoder
      Htype' Hprepare Haudio Hcodec Hpath Hmake.
    rewrite Htype', Hprepare, Haudio.
    unfold MediaRequestHandler.processAudioPrepare. simpl.
    rewrite Hpath, Hmake. by destruct (codec_type audio_) as [[]|].
Qed.

End MediaRequestHandlerProperties.

(** * Properties of the authentication token service *)

Section AuthTokenServiceProperties.
Import AuthTokenService.
Context {Session AuthToken LoginThrottler Address DateTime : Type}.
Variable sha1 : string → string.
Variable getByValue : Session → string → option AuthToken.
Variable getExpiry : AuthToken → DateTime.
Variable getUserId : AuthToken → Z.
Variable remove : Session → AuthToken → Session.
Variable before : DateTime → DateTime → bool.
Variable isClientThrottled : LoginThrottler → Address → bool.
Variable onBadClientAttempt : LoginThrottler → Address → LoginThrottler.
Variable onGoodClientAttempt : LoginThrottler → Address → LoginThrottler.
Variable onUserAuthenticated : Session → Z → Session.

Local Abbreviation processAuthToken :=
  (AuthTokenService.processAuthToken sha1 getByValue getExpiry getUserId
     remove before isClientThrottled onBadClientAttempt onGoodClientAttempt
     onUserAuthenticated).

Implicit Types (session : Session) (throttler : LoginThrottler).
Implicit Types (clientAddress : Address) (now : DateTime).
Implicit Types (tokenValue : string).

Lemma processAuthToken_granted_stored
    now session throttler clientAddress tokenValue :
  (processAuthToken now session throttler clientAddress tokenValue).1.1.(state)
  = Granted →
  ∃ authToken, getByValue session (sha1 tokenValue) = Some authToken.
Proof.
  unfold AuthTokenService.processAuthToken,
    AuthTokenService.processAuthToken_static.
  destruct (isClientThrottled throttler clientAddress); simpl; [done|].
  destruct (getByValue session (sha1 tokenValue)) as [authToken|]; simpl;
    [by eexists|done].
Qed.


(** X20. A token serves once.  When the session forgets a token that is
    removed, and the bookkeeping of an authentication leaves the tokens
    alone, a token value that was looked at (granted, or denied as unknown
    or expired) is never granted afterwards, at whatever date and from
    whatever address it comes back. *)
Theorem processAuthToken_single_use
    now session throttler clientAddress tokenValue
    now' throttler' clientAddress' :
  (∀ s h t, getByValue s h = Some t → getByValue (remove s t) h = None) →
  (∀ s u h, getByValue (onUserAuthenticated s u) h = getByValue s h) →
  (processAuthToken now session throttler clientAddress tokenValue).1.1.(state)
  ≠ Throttled →
  (processAuthToken now'
     (processAuthToken now session throttler clientAddress tokenValue).1.2
     throttler' clientAddress' tokenValue).1.1.(state)
  ≠ Granted.
Proof.
  intros Hremove Hauth Hseen.
  assert (getByValue
            (processAuthToken now session throttler clientAddress
               tokenValue).1.2 (sha1 tokenValue) = None) as Hgone.
  { revert Hseen. unfold AuthTokenService.processAuthToken,
      AuthTokenService.processAuthToken_static.
    destruct (isClientThrottled throttler clientAddress) eqn:Hthrottled;
      simpl; [done|].
    destruct (getByValue session (sha1 tokenValue)) as [authToken|] eqn:Hfound;
      simpl.
    - destruct (before (getExpiry authToken) now); simpl; intros _.
      + by eapply Hremove.
      + rewrite Hauth. by eapply Hremove.
    - done. }
  intros Hgranted. apply processAuthToken_granted_stored in Hgranted.
  destruct Hgranted as (t & Ht). congruence.
Qed.

End AuthTokenServiceProperties.

(** * The further properties at work *)

Lemma getSimilarObjects_run_returnsWith
    {IdType : Type} `{Countable IdType}
    {TrackArtistLinkType : Type} `{Countable TrackArtistLinkType}
    (this : FeaturesEngine TrackArtistLinkType) (ids : list IdType)
    (objectMatrix : Matrix (list IdType))
    (objectPositions : gmap IdType (list Position))
    (maxCount fuel : nat) (calls : list NetworkCall) (res : list IdType) :
  getSimilarObjects this ids objectMatrix objectPositions maxCount fuel
  = (calls, Returned res) →
  returnsWith (getSimilarObjects this ids objectMatrix objectPositions maxCount)
    calls res.
Proof.
  intros Hrun. exists fuel. intros fuel' Hle.
  destruct (decide (getMatchingRefVectorsPosition ids objectPositions = []))
    as [Hempty|Hfound].
  - rewrite getSimilarObjects_unresolved in Hrun |- * by done. done.
  - rewrite getSimilarObjects_resolved in Hrun |- * by done.
    by apply (searchLoop_fuel_mono _ _ _ _ fuel).
Qed.

(** X2 on the demonstration snapshot: track 7 has no position. *)
Lemma getMatchingRefVectorsPosition_skips_unknown_witness :
  getMatchingRefVectorsPosition ([1%Z] ++ 7%Z :: [3%Z]) Demo.trackPositions
  = getMatchingRefVectorsPosition ([1%Z] ++ [3%Z]) Demo.trackPositions.
Proof.
  apply (getMatchingRefVectorsPosition_skips_unknown [1%Z] 7%Z [3%Z]
           Demo.trackPositions).
  reflexivity.
Defined.

(** X6 on the demonstration snapshot, without network: one track asked
    for from track 1, whose cell holds track 2. *)
Lemma getSimilarObjects_filled_by_seed_cells_witness :
  getSimilarObjects (Demo.engine None) [1%Z] Demo.trackMatrix
    Demo.trackPositions 1 1
  = ([], Returned
           (take 1
              (removeInput [1%Z]
                 (getObjectsIds
                    (getMatchingRefVectorsPosition [1%Z] Demo.trackPositions)
                    Demo.trackMatrix)))).
Proof.
  apply (getSimilarObjects_filled_by_seed_cells (Demo.engine None) [1%Z]
           Demo.trackMatrix Demo.trackPositions 1 0).
  vm_compute. lia.
Defined.

(** X7 on the demonstration snapshot, without network: five tracks asked
    for. *)
Lemma getSimilarObjects_null_network_witness :
  getSimilarObjects (Demo.engine None) [1%Z] Demo.trackMatrix
    Demo.trackPositions 5 1
  = ([], NullNetwork
           (removeInput [1%Z]
              (getObjectsIds
                 (getMatchingRefVectorsPosition [1%Z] Demo.trackPositions)
                 Demo.trackMatrix))).
Proof.
  apply (getSimilarObjects_null_network (Demo.engine None) [1%Z]
           Demo.trackMatrix Demo.trackPositions 5 0).
  - reflexivity.
  - discriminate.
  - vm_compute. lia.
Defined.

(** X8 on the demonstration snapshot: track 3, reported second, is held
    by the cell that the network returned to the first call. *)
Lemma getSimilarObjects_sound_witness :
  ∃ p,
    3%Z ∈ get Demo.trackMatrix p
    ∧ (p ∈ getMatchingRefVectorsPosition [1%Z] Demo.trackPositions
       ∨ ∃ network (call : NetworkCall),
           _network (Demo.engine (Some Demo.network)) = Some network
           ∧ call ∈ [([Demo.cell00], 1.5%float)]
           ∧ getClosestRefVectorPosition network call.1 call.2 = Some p).
Proof.
  pose proof (getSimilarObjects_sound (Demo.engine (Some Demo.network)) [1%Z]
                Demo.trackMatrix Demo.trackPositions 2 10 3%Z) as Hsound.
  rewrite demo_two_tracks in Hsound. apply Hsound.
  simpl. right. left.
Defined.

(** X9 on the demonstration snapshot: two tracks asked for, then five. *)
Lemma getSimilarObjects_maxCount_mono_witness :
  [2%Z; 3%Z] = take 2 [2%Z; 3%Z; 4%Z].
Proof.
  eapply (getSimilarObjects_maxCount_mono (Demo.engine (Some Demo.network))
            [1%Z] Demo.trackMatrix Demo.trackPositions 2 5
            _ _ [2%Z; 3%Z] [2%Z; 3%Z; 4%Z]).
  - lia.
  - exact (getSimilarObjects_run_returnsWith _ _ _ _ _ _ _ _ demo_two_tracks).
  - exact (getSimilarObjects_run_returnsWith _ _ _ _ _ _ _ _ demo_whole_grid).
Defined.

(** X10 on the demonstration snapshot: the search for five tracks went
    through cell (1,1), so that it reports track 4. *)
Lemma getSimilarObjects_complete_witness : 4%Z ∈ [2%Z; 3%Z; 4%Z].
Proof.
  eapply (getSimilarObjects_complete (Demo.engine (Some Demo.network)) [1%Z]
            Demo.trackMatrix Demo.trackPositions 5 10 _ [2%Z; 3%Z; 4%Z]
            Demo.cell11 4%Z demo_whole_grid).
  - simpl. lia.
  - right. eexists. split; [do 3 right; left|].
    simpl. do 3 right. left.
  - left.
  - by intros ?%list_elem_of_singleton.
Defined.

(** X11 on five rows: two rows asked for from the second row on. *)
Lemma getByFilter_page_witness :
  Release.getByFilter [10; 20; 30; 40; 50] 1 2
  = (take (Z.to_nat 2) (drop (Z.to_nat 1) [10; 20; 30; 40; 50]),
     bool_decide (Z.to_nat 1 + Z.to_nat 2 < length [10; 20; 30; 40; 50]))
  ∧ Release.getByFilter [10; 20; 30; 40; 50] 1 (-1)
    = (drop (Z.to_nat 1) [10; 20; 30; 40; 50], false).
Proof. apply (getByFilter_page [10; 20; 30; 40; 50] 1 2); lia. Defined.

(** X12 on five rows. *)
Lemma getByFilter_next_page_witness :
  (Release.getByFilter [10; 20; 30; 40; 50] 1 2).1
  ++ (Release.getByFilter [10; 20; 30; 40; 50] (1 + 2) (-1)).1
  = (Release.getByFilter [10; 20; 30; 40; 50] 1 (-1)).1
  ∧ ((Release.getByFilter [10; 20; 30; 40; 50] 1 2).2 = true
     ↔ (Release.getByFilter [10; 20; 30; 40; 50] (1 + 2) 2).1 ≠ []).
Proof. apply (getByFilter_next_page [10; 20; 30; 40; 50] 1 2); lia. Defined.

(** The second page of two rows, and the last one. *)
Example getByFilter_pages :
  Release.getByFilter [10; 20; 30; 40; 50] 2 2 = ([30; 40], true)
  ∧ Release.getByFilter [10; 20; 30; 40; 50] 4 2 = ([50], false)
  ∧ Release.getByFilter [10; 20; 30; 40; 50] 0 0 = ([], true).
Proof. by split_and!. Qed.

(** Clusters of the types 5 and 3, grouped by two: type 3 comes first, the
    third cluster of type 5 is left out. *)
Example getClusterGroups_by_two :
  Release.getClusterGroups snd
    [(1, 5%Z); (2, 3%Z); (3, 5%Z); (4, 5%Z); (5, 3%Z)] 2
  = [[(2, 3%Z); (5, 3%Z)]; [(1, 5%Z); (3, 5%Z)]].
Proof. reflexivity. Qed.

(** X15 on a request of a type the handler does not know. *)
Lemma process_refused_untouched_witness :
  MediaDemo.emptyResponse = MediaDemo.emptyResponse
  ∧ MediaDemo.busy = MediaDemo.busy.
Proof.
  apply (process_refused_untouched MediaDemo.isComplete
           MediaDemo.transcoderProcess MediaDemo._maxPartSize
           MediaDemo.getTrackPath MediaDemo.makeTranscoder 0
           (MediaRequestHandler.mkMediaRequest
              MediaRequestHandler.TypeMediaOther None None None)
           MediaDemo.emptyResponse MediaDemo.busy).
  reflexivity.
Defined.

(** X16 on a handler that is transcoding. *)
Lemma processAudioPrepare_in_progress_witness :
  (MediaRequestHandler.processAudioPrepare MediaDemo.getTrackPath
     MediaDemo.makeTranscoder (MediaRequestHandler.mkAudio None None 1)
     MediaDemo.emptyResponse MediaDemo.busy).2
  = MediaDemo.busy
  ∧ (MediaRequestHandler.codec_type (MediaRequestHandler.mkAudio None None 1)
     ≠ Some MediaRequestHandler.CodecTypeOther →
     MediaRequestHandler.processAudioPrepare MediaDemo.getTrackPath
       MediaDemo.makeTranscoder (MediaRequestHandler.mkAudio None None 1)
       MediaDemo.emptyResponse MediaDemo.busy
     = (true,
        MediaRequestHandler.setError MediaDemo.emptyResponse true
          "Transcode already in progress",
        MediaDemo.busy)).
Proof.
  apply (processAudioPrepare_in_progress MediaDemo.getTrackPath
           MediaDemo.makeTranscoder (MediaRequestHandler.mkAudio None None 1)
           MediaDemo.emptyResponse MediaDemo.busy
           (MediaRequestHandler.mkTranscoder 2 [Byte.x00])).
  reflexivity.
Defined.

(** X17 on a handler that is transcoding: five bytes asked for, three
    allowed. *)
Lemma processGetPart_part_witness :
  (∃ n sent rest,
     true = true
     ∧ MediaRequestHandler.mkMediaResponse
         (Some MediaRequestHandler.TypePart) None
         (Some [Byte.x00; Byte.x01; Byte.x02])
       = MediaRequestHandler.appendPart MediaDemo.emptyResponse sent
     ∧ MediaRequestHandler.mkHandler
         (Some (MediaRequestHandler.mkTranscoder 1 []))
       = MediaRequestHandler.mkHandler
           (Some (MediaRequestHandler.mkTranscoder
                    (MediaRequestHandler.state
                       (Nat.iter n MediaDemo.transcoderProcess
                          (MediaRequestHandler.mkTranscoder 2 [Byte.x00])))
                    rest))
     ∧ sent ++ rest
       = MediaRequestHandler.getOutputData
           (Nat.iter n MediaDemo.transcoderProcess
              (MediaRequestHandler.mkTranscoder 2 [Byte.x00]))
     ∧ length sent ≤ 5
     ∧ length sent ≤ MediaDemo._maxPartSize
     ∧ (length sent < 5 `min` MediaDemo._maxPartSize →
        MediaDemo.isComplete
          (Nat.iter n MediaDemo.transcoderProcess
             (MediaRequestHandler.mkTranscoder 2 [Byte.x00])) = true))
  ∧ is_Some
      (MediaRequestHandler.processGetPart MediaDemo.isComplete
         MediaDemo.transcoderProcess MediaDemo._maxPartSize 2
         (MediaRequestHandler.mkGetPart 5) MediaDemo.emptyResponse
         MediaDemo.busy).
Proof.
  destruct (processGetPart_part MediaDemo.isComplete
              MediaDemo.transcoderProcess MediaDemo._maxPartSize
              (MediaRequestHandler.mkGetPart 5) MediaDemo.emptyResponse
              MediaDemo.busy (MediaRequestHandler.mkTranscoder 2 [Byte.x00])
              eq_refl) as [Hpart Hreturns].
  split.
  - apply (Hpart 10). reflexivity.
  - apply (Hreturns 2 2); [reflexivity|lia].
Defined.

(** X18 on a handler that is transcoding. *)
Lemma process_terminate_resets_witness :
  MediaDemo.process 0 MediaDemo.terminate MediaDemo.emptyResponse MediaDemo.busy
  = Some (true,
          MediaRequestHandler.setError MediaDemo.emptyResponse false "",
          MediaDemo.idle)
  ∧ MediaDemo.process 0 (MediaDemo.getPart 5) MediaDemo.emptyResponse
      MediaDemo.idle
    = Some (true,
            MediaRequestHandler.setError MediaDemo.emptyResponse true
              "No transcoder set!",
            MediaDemo.idle)
  ∧ MediaDemo.process 0 (MediaDemo.prepareTrack 1) MediaDemo.emptyResponse
      MediaDemo.idle
    = Some (true,
            MediaRequestHandler.setError MediaDemo.emptyResponse false "",
            MediaRequestHandler.mkHandler
              (Some (MediaRequestHandler.mkTranscoder 2 []))).
Proof.
  destruct (process_terminate_resets MediaDemo.isComplete
              MediaDemo.transcoderProcess MediaDemo._maxPartSize
              MediaDemo.getTrackPath MediaDemo.makeTranscoder
              0 MediaDemo.terminate MediaDemo.emptyResponse MediaDemo.busy tt
              eq_refl eq_refl) as (Hreset & Hpart & Hprepare).
  split_and!.
  - exact Hreset.
  - exact (Hpart 0 (MediaDemo.getPart 5) MediaDemo.emptyResponse
             (MediaRequestHandler.mkGetPart 5) eq_refl eq_refl).
  - apply (Hprepare 0 (MediaDemo.prepareTrack 1) MediaDemo.emptyResponse
             (MediaRequestHandler.mkPrepare
                (Some (MediaRequestHandler.mkAudio None None 1)) None)
             (MediaRequestHandler.mkAudio None None 1) "a.flac"
             (MediaRequestHandler.mkTranscoder 2 []));
      (reflexivity || discriminate).
Defined.

(** A transcode from the request to its last byte: four bytes are served
    in parts of three bytes at most. *)
Example media_session :
  MediaDemo.process 10 (MediaDemo.getPart 5) MediaDemo.emptyResponse
    (MediaRequestHandler.mkHandler
       (Some (MediaRequestHandler.mkTranscoder 2 [])))
  = Some (true,
          MediaRequestHandler.mkMediaResponse
            (Some MediaRequestHandler.TypePart) None
            (Some [Byte.x01; Byte.x02; Byte.x01]),
          MediaRequestHandler.mkHandler
            (Some (MediaRequestHandler.mkTranscoder 0 [Byte.x02])))
  ∧ MediaDemo.process 10 (MediaDemo.getPart 5) MediaDemo.emptyResponse
      (MediaRequestHandler.mkHandler
         (Some (MediaRequestHandler.mkTranscoder 0 [Byte.x02])))
    = Some (true,
            MediaRequestHandler.mkMediaResponse
              (Some MediaRequestHandler.TypePart) None (Some [Byte.x02]),
            MediaRequestHandler.mkHandler
              (Some (MediaRequestHandler.mkTranscoder 0 []))).
Proof. by split. Qed.

Lemma authDemo_remove (s : AuthDemo.Session) (h : string) (t : AuthDemo.AuthToken) :
  AuthDemo.getByValue s h = Some t →
  AuthDemo.getByValue (AuthDemo.remove s t) h = None.
Proof.
  unfold AuthDemo.getByValue, AuthDemo.remove.
  destruct ((s : gmap string (Z * nat)) !! h) as [entry|]; [|done].
  simpl. intros [= <-]. simpl. by rewrite lookup_delete_eq.
Qed.


(** X20 on the token of the demonstration: granted at date 50, it is not
    granted again at date 60 from another address. *)
Lemma processAuthToken_single_use_witness :
  (AuthDemo.processAuthToken 60
     (AuthDemo.processAuthToken 50 AuthDemo.session ∅ 1 "secret").1.2
     ∅ 2 "secret").1.1.(AuthTokenService.state)
  ≠ AuthTokenService.Granted.
Proof.
  apply (processAuthToken_single_use AuthDemo.sha1 AuthDemo.getByValue
           AuthDemo.getExpiry AuthDemo.getUserId AuthDemo.remove
           AuthDemo.before AuthDemo.isClientThrottled
           AuthDemo.onBadClientAttempt AuthDemo.onGoodClientAttempt
           AuthDemo.onUserAuthenticated
           50 AuthDemo.session ∅ 1 "secret" 60 ∅ 2).
  - exact authDemo_remove.
  - reflexivity.
  - vm_compute. discriminate.
Defined.

(** The token of the demonstration, presented in time, too late, and
    twice. *)
Example auth_session :
  (AuthDemo.processAuthToken 50 AuthDemo.session ∅ 1 "secret").1.1
  = AuthTokenService.mkAuthTokenProcessResult AuthTokenService.Granted
      (Some (AuthTokenService.mkAuthTokenInfo 7 100))
  ∧ (AuthDemo.processAuthToken 101 AuthDemo.session ∅ 1 "secret").1
    = (AuthTokenService.mkAuthTokenProcessResult AuthTokenService.Denied None,
       ∅)
  ∧ (AuthDemo.processAuthToken 60
       (AuthDemo.processAuthToken 50 AuthDemo.session ∅ 1 "secret").1.2
       ∅ 1 "secret").1.1
    = AuthTokenService.mkAuthTokenProcessResult AuthTokenService.Denied None.
Proof. by split_and!; vm_compute. Qed.
